(** * ckcore: the POSIX back-end of [ckcore::File] (src/linux/file.cc)

    A shallow embedding of the File class and of the operating-system
    interface it is written against.  The class owns one descriptor field
    and one path field; every member function is a short sequence of calls
    into the C library ([open], [close], [lseek], [read], [write], [stat],
    [fstat], [unlink], [rename], [access], [localtime_r]).  The C library is
    therefore a parameter of the development (record [Posix]); each call
    is recorded in a trace together with the value it returned, so that
    statements such as "without touching the OS" or "closes before it
    renames" are statements about the trace.

    Descriptors, offsets and results are integers ([Z]): [file.cc] does no
    arithmetic on them, it hands them on and compares them with [-1] and
    [0]. *)

From Stdlib Require Import ZArith List String Ascii Bool Lia.
From Stdlib Require Import Strings.Byte.
Import ListNotations.
Local Open Scope Z_scope.

(** ** Types the class is written against *)

(** [FileBase::FileMode] and [FileBase::FileWhence]: closed enumerations
    (the members [file.cc] switches over). *)
Inductive FileMode : Type := ckOPEN_READ | ckOPEN_WRITE.
Inductive FileWhence : Type := ckFILE_CURRENT | ckFILE_BEGIN | ckFILE_END.

(** Modelled from the spec: [ckcore::Path] (ckcore/path.hh is not among the
    sources).  "A value type exposing [name() -> native string]"; built from
    a native string, which [file.cc] relies on where it passes
    [file_path_.Name().c_str()] to a function expecting a [Path].  Names are
    C strings, so [c_str] is the identity on them. *)
Record Path : Type := mkPath { Name : string }.

(** [struct stat], restricted to the members [file.cc] reads. *)
Record stat_t : Type := mkStat {
  st_size : Z;
  st_atime : Z;
  st_mtime : Z;
  st_ctime : Z
}.

(** [struct tm]. *)
Record tm : Type := mkTm {
  tm_sec : Z; tm_min : Z; tm_hour : Z;
  tm_mday : Z; tm_mon : Z; tm_year : Z;
  tm_wday : Z; tm_yday : Z; tm_isdst : Z
}.

(** Constants of <fcntl.h>, <unistd.h> and <sys/stat.h> (Linux values). *)
Definition O_RDONLY : Z := 0.
Definition O_WRONLY : Z := 1.
Definition O_CREAT : Z := 64.
Definition S_IRUSR : Z := 256.
Definition S_IWUSR : Z := 128.
Definition SEEK_SET : Z := 0.
Definition SEEK_CUR : Z := 1.
Definition SEEK_END : Z := 2.
Definition R_OK : Z := 4.
Definition W_OK : Z := 2.

(** ** Path names *)

Definition is_slash (c : ascii) : bool := Ascii.eqb c "/"%char.

Fixpoint has_slash (s : string) : bool :=
  match s with
  | EmptyString => false
  | String c rest => is_slash c || has_slash rest
  end.

(** What follows the last slash of a name (the whole name when it has none). *)
Fixpoint base_name (s : string) : string :=
  match s with
  | EmptyString => EmptyString
  | String c rest =>
      if has_slash rest then base_name rest
      else if is_slash c then rest else s
  end.

Definition leading_dot (s : string) : bool :=
  match s with
  | String c _ => Ascii.eqb c "."%char
  | EmptyString => false
  end.

(** ** The operating system *)

(** The calls [file.cc] makes.  A call that can change the system returns
    the new [World]; [stat], [fstat] and [access] only inspect it.  The
    integer results are the C return values ([-1] signals an error). *)
Record Posix : Type := mkPosix {
  World : Type;
  sys_open : string -> Z -> option Z -> World -> Z * World;
  sys_close : Z -> World -> Z * World;
  sys_lseek : Z -> Z -> Z -> World -> Z * World;
  sys_read : Z -> N -> World -> (Z * list byte) * World;
  sys_write : Z -> list byte -> N -> World -> Z * World;
  sys_unlink : string -> World -> Z * World;
  sys_rename : string -> string -> World -> Z * World;
  sys_stat : string -> World -> Z * stat_t;
  sys_fstat : Z -> World -> Z * stat_t;
  sys_access : string -> Z -> World -> Z;
  sys_localtime_r : Z -> option tm
}.

(** One entry of the trace: the call, its arguments and what it returned. *)
Inductive event : Type :=
| ev_open (path : string) (flags : Z) (mode : option Z) (ret : Z)
| ev_close (fd ret : Z)
| ev_lseek (fd offset whence ret : Z)
| ev_read (fd : Z) (count : N) (ret : Z)
| ev_write (fd : Z) (buffer : list byte) (count : N) (ret : Z)
| ev_unlink (path : string) (ret : Z)
| ev_rename (old_path new_path : string) (ret : Z)
| ev_stat (path : string) (ret : Z)
| ev_fstat (fd ret : Z)
| ev_access (path : string) (amode ret : Z).

(** ** State passing *)

Definition ST (S A : Type) : Type := S -> A * S.

Definition ret {S A : Type} (a : A) : ST S A := fun s => (a, s).

Definition bind {S A B : Type} (c : ST S A) (k : A -> ST S B) : ST S B :=
  fun s => let (a, s') := c s in k a s'.

Declare Scope st_scope.
Delimit Scope st_scope with st.
Notation "x <- c ;; k" := (bind c (fun x => k))
  (at level 61, c at next level, right associativity) : st_scope.
Notation "c ;; k" := (bind c (fun _ => k))
  (at level 61, right associativity) : st_scope.
Local Open Scope st_scope.

Section File.

Context {os : Posix}.

(** The system as the program sees it: its state and the calls made so far. *)
Record Machine : Type := mkMachine {
  world : World os;
  trace : list event
}.

Definition syscall {A : Type} (f : World os -> A * World os) (ev : A -> event)
  : ST Machine A :=
  fun m => let (r, w) := f (world m) in
           (r, {| world := w; trace := trace m ++ [ev r] |}).

Definition query {A : Type} (f : World os -> A) (ev : A -> event)
  : ST Machine A :=
  fun m => let r := f (world m) in
           (r, {| world := world m; trace := trace m ++ [ev r] |}).

Definition c_open (path : string) (flags : Z) (mode : option Z) : ST Machine Z :=
  syscall (sys_open os path flags mode) (ev_open path flags mode).

Definition c_close (fd : Z) : ST Machine Z :=
  syscall (sys_close os fd) (ev_close fd).

Definition c_lseek (fd offset whence : Z) : ST Machine Z :=
  syscall (sys_lseek os fd offset whence) (ev_lseek fd offset whence).

Definition c_read (fd : Z) (count : N) : ST Machine (Z * list byte) :=
  syscall (sys_read os fd count) (fun r => ev_read fd count (fst r)).

Definition c_write (fd : Z) (buffer : list byte) (count : N) : ST Machine Z :=
  syscall (sys_write os fd buffer count) (ev_write fd buffer count).

Definition c_unlink (path : string) : ST Machine Z :=
  syscall (sys_unlink os path) (ev_unlink path).

Definition c_rename (old_path new_path : string) : ST Machine Z :=
  syscall (sys_rename os old_path new_path) (ev_rename old_path new_path).

Definition c_stat (path : string) : ST Machine (Z * stat_t) :=
  query (sys_stat os path) (fun r => ev_stat path (fst r)).

Definition c_fstat (fd : Z) : ST Machine (Z * stat_t) :=
  query (sys_fstat os fd) (fun r => ev_fstat fd (fst r)).

Definition c_access (path : string) (amode : Z) : ST Machine Z :=
  query (sys_access os path amode) (ev_access path amode).

(** ** The class *)

(** The two data members of [File]. *)
Record File : Type := mkFile {
  file_handle_ : Z;
  file_path_ : Path
}.

(** A member function runs on the object ([this]) and on the machine. *)
Record State : Type := mkState {
  this : File;
  mach : Machine
}.

Definition lift {A : Type} (c : ST Machine A) : ST State A :=
  fun s => let (a, m) := c (mach s) in (a, {| this := this s; mach := m |}).

Definition get_handle : ST State Z := fun s => (file_handle_ (this s), s).

Definition get_path : ST State Path := fun s => (file_path_ (this s), s).

Definition set_handle (h : Z) : ST State unit :=
  fun s => (tt, {| this := {| file_handle_ := h; file_path_ := file_path_ (this s) |};
                   mach := mach s |}).

Definition set_path (p : Path) : ST State unit :=
  fun s => (tt, {| this := {| file_handle_ := file_handle_ (this s); file_path_ := p |};
                   mach := mach s |}).

(** [File::File(const Path &file_path)] *)
Definition File_ctor (file_path : Path) : File :=
  {| file_handle_ := -1; file_path_ := file_path |}.

(** [bool File::Close()] *)
Definition Close : ST State bool :=
  h <- get_handle ;;
  if h =? -1 then ret false
  else
    r <- lift (c_close h) ;;
    if r =? 0 then (set_handle (-1) ;; ret true)
    else ret false.

(** [File::~File()] *)
Definition File_dtor : ST State unit :=
  Close ;; ret tt.

(** [bool File::Open(FileMode file_mode)].  The [switch] has a case for each
    member of [FileMode]. *)
Definition Open (file_mode : FileMode) : ST State bool :=
  h <- get_handle ;;
  abort <- (if negb (h =? -1) then (closed <- Close ;; ret (negb closed))
            else ret false) ;;
  if abort then ret false
  else
    p <- get_path ;;
    match file_mode with
    | ckOPEN_READ =>
        fd <- lift (c_open (Name p) O_RDONLY None) ;;
        set_handle fd
    | ckOPEN_WRITE =>
        fd <- lift (c_open (Name p) (Z.lor O_CREAT O_WRONLY)
                      (Some (Z.lor S_IRUSR S_IWUSR))) ;;
        set_handle fd
    end ;;
    h' <- get_handle ;;
    ret (negb (h' =? -1)).

(** [bool File::Test() const] *)
Definition Test : ST State bool :=
  h <- get_handle ;;
  ret (negb (h =? -1)).

(** [tint64 File::Seek(tint64 distance,FileWhence whence)].  Every member of
    [FileWhence] returns from the [switch]; the [return -1] after it is for
    a value outside the enumeration. *)
Definition Seek (distance : Z) (whence : FileWhence) : ST State Z :=
  h <- get_handle ;;
  if h =? -1 then ret (-1)
  else
    match whence with
    | ckFILE_CURRENT => lift (c_lseek h distance SEEK_CUR)
    | ckFILE_BEGIN => lift (c_lseek h distance SEEK_SET)
    | ckFILE_END => lift (c_lseek h distance SEEK_END)
    end.

(** [tint64 File::Tell() const] *)
Definition Tell : ST State Z :=
  h <- get_handle ;;
  if h =? -1 then ret (-1)
  else lift (c_lseek h 0 SEEK_CUR).

(** [tint64 File::Read(void *buffer,unsigned long count)]: the result and
    the bytes stored into [buffer] (none when no call is made). *)
Definition Read (count : N) : ST State (Z * list byte) :=
  h <- get_handle ;;
  if h =? -1 then ret (-1, [])
  else lift (c_read h count).

(** [tint64 File::Write(const void *buffer,unsigned long count)] *)
Definition Write (buffer : list byte) (count : N) : ST State Z :=
  h <- get_handle ;;
  if h =? -1 then ret (-1)
  else lift (c_write h buffer count).

(** [static bool File::Exist(const Path &file_path)] *)
Definition Exist_static (file_path : Path) : ST Machine bool :=
  r <- c_stat (Name file_path) ;;
  ret (fst r =? 0).

(** [bool File::Exist() const] *)
Definition Exist : ST State bool :=
  h <- get_handle ;;
  if negb (h =? -1) then
    r <- lift (c_fstat h) ;;
    ret (fst r =? 0)
  else
    p <- get_path ;;
    lift (Exist_static p).

(** [bool File::Remove()] *)
Definition Remove : ST State bool :=
  Close ;;
  p <- get_path ;;
  r <- lift (c_unlink (Name p)) ;;
  ret (r =? 0).

(** [bool File::Rename(const Path &new_file_path)] *)
Definition Rename (new_file_path : Path) : ST State bool :=
  e <- lift (Exist_static new_file_path) ;;
  if e then ret false
  else
    Close ;;
    p <- get_path ;;
    r <- lift (c_rename (Name p) (Name new_file_path)) ;;
    if r =? 0 then (set_path new_file_path ;; ret true)
    else ret false.

(** The three out-parameters of [Time]: access, modification and creation
    time.  A conversion that fails leaves its slot as it was. *)
Definition times : Type := (tm * tm * tm)%type.

(** [static bool File::Time(const Path &file_path, struct tm &access_time,
    struct tm &modify_time, struct tm &create_time)] *)
Definition Time_static (file_path : Path) (out : times) : ST Machine (bool * times) :=
  let '(access_time, modify_time, create_time) := out in
  r <- c_stat (Name file_path) ;;
  let (rc, file_stat) := r in
  if rc =? -1 then ret (false, out)
  else
    match sys_localtime_r os (st_atime file_stat) with
    | None => ret (false, out)
    | Some access_time =>
      match sys_localtime_r os (st_mtime file_stat) with
      | None => ret (false, (access_time, modify_time, create_time))
      | Some modify_time =>
        match sys_localtime_r os (st_ctime file_stat) with
        | None => ret (false, (access_time, modify_time, create_time))
        | Some create_time => ret (true, (access_time, modify_time, create_time))
        end
      end
    end.

(** [bool File::Time(struct tm &access_time, struct tm &modify_time,
    struct tm &create_time) const] *)
Definition Time (out : times) : ST State (bool * times) :=
  let '(access_time, modify_time, create_time) := out in
  h <- get_handle ;;
  if negb (h =? -1) then
    r <- lift (c_fstat h) ;;
    let (rc, file_stat) := r in
    if rc =? -1 then ret (false, out)
    else
      match sys_localtime_r os (st_atime file_stat) with
      | None => ret (false, out)
      | Some access_time =>
        match sys_localtime_r os (st_mtime file_stat) with
        | None => ret (false, (access_time, modify_time, create_time))
        | Some modify_time =>
          match sys_localtime_r os (st_ctime file_stat) with
          | None => ret (false, (access_time, modify_time, create_time))
          | Some create_time => ret (true, (access_time, modify_time, create_time))
          end
        end
      end
  else
    p <- get_path ;;
    lift (Time_static (mkPath (Name p)) out).

(** [static bool File::Access(const Path &file_path,FileMode file_mode)].
    The [return false] after the [switch] is for a value outside the
    enumeration. *)
Definition Access_static (file_path : Path) (file_mode : FileMode) : ST Machine bool :=
  match file_mode with
  | ckOPEN_READ => r <- c_access (Name file_path) R_OK ;; ret (r =? 0)
  | ckOPEN_WRITE => r <- c_access (Name file_path) W_OK ;; ret (r =? 0)
  end.

(** [bool File::Access(FileMode file_mode) const] *)
Definition Access (file_mode : FileMode) : ST State bool :=
  p <- get_path ;;
  lift (Access_static (mkPath (Name p)) file_mode).

(** [static tint64 File::Size(const Path &file_path)] *)
Definition Size_static (file_path : Path) : ST Machine Z :=
  r <- c_stat (Name file_path) ;;
  let (rc, file_stat) := r in
  if rc =? -1 then ret (-1)
  else ret (st_size file_stat).

(** [tint64 File::Size()] *)
Definition Size : ST State Z :=
  h <- get_handle ;;
  if h =? -1 then
    p <- get_path ;;
    lift (Size_static (mkPath (Name p)))
  else
    cur_pos <- Tell ;;
    size <- Seek 0 ckFILE_END ;;
    Seek cur_pos ckFILE_BEGIN ;;
    ret size.

(** [static bool File::Remove(const Path &file_path)] *)
Definition Remove_static (file_path : Path) : ST Machine bool :=
  r <- c_unlink (Name file_path) ;;
  ret (r =? 0).

(** [static bool File::Rename(const Path &old_file_path,
    const Path &new_file_path)] *)
Definition Rename_static (old_file_path new_file_path : Path) : ST Machine bool :=
  e <- Exist_static new_file_path ;;
  if e then ret false
  else
    r <- c_rename (Name old_file_path) (Name new_file_path) ;;
    ret (r =? 0).

(** Modelled from the spec: [hidden] (declared in the class, absent from the
    POSIX source).  "Returns true iff the file is considered hidden by the
    platform convention (POSIX: leading dot in the basename).  Delegates to
    the static form." *)
Definition Hidden_static (file_path : Path) : ST Machine bool :=
  ret (leading_dot (base_name (Name file_path))).

Definition Hidden : ST State bool :=
  p <- get_path ;;
  lift (Hidden_static p).

(** ** Sequences of member-function calls *)

Inductive op : Type :=
| Op_Open (file_mode : FileMode)
| Op_Close
| Op_Remove
| Op_Seek (distance : Z) (whence : FileWhence)
| Op_Tell
| Op_Read (count : N)
| Op_Write (buffer : list byte) (count : N)
| Op_Rename (new_file_path : Path).

Inductive result : Type :=
| R_bool (b : bool)
| R_int (n : Z)
| R_read (n : Z) (data : list byte).

Definition exec (o : op) : ST State result :=
  match o with
  | Op_Open file_mode => b <- Open file_mode ;; ret (R_bool b)
  | Op_Close => b <- Close ;; ret (R_bool b)
  | Op_Remove => b <- Remove ;; ret (R_bool b)
  | Op_Seek distance whence => n <- Seek distance whence ;; ret (R_int n)
  | Op_Tell => n <- Tell ;; ret (R_int n)
  | Op_Read count => r <- Read count ;; ret (R_read (fst r) (snd r))
  | Op_Write buffer count => n <- Write buffer count ;; ret (R_int n)
  | Op_Rename new_file_path => b <- Rename new_file_path ;; ret (R_bool b)
  end.

(** Runs the calls in order; the value is the history, oldest call first. *)
Fixpoint run (ops : list op) : ST State (list (op * result)) :=
  match ops with
  | [] => ret []
  | o :: rest =>
      r <- exec o ;;
      h <- run rest ;;
      ret ((o, r) :: h)
  end.

(** A freshly constructed [File] on a machine that has made no call yet. *)
Definition fresh (file_path : Path) (w : World os) : State :=
  {| this := File_ctor file_path; mach := {| world := w; trace := [] |} |}.

End File.

Arguments Machine : clear implicits.
Arguments State : clear implicits.

(** ** When is a File open?  Two readings of a run *)

(** The reading of the specification, on the history of calls and their
    results: "the most recent [Open] succeeded and no subsequent [Close] or
    [Remove] succeeded". *)
Definition spec_step (opened : bool) (e : op * result) : bool :=
  match e with
  | (Op_Open _, R_bool b) => b
  | (Op_Close, R_bool true) => false
  | (Op_Remove, R_bool true) => false
  | _ => opened
  end.

Definition spec_test (history : list (op * result)) : bool :=
  fold_left spec_step history false.

(** The reading of the trace: the descriptor the last [open] returned is
    still there when no [close] has succeeded since. *)
Definition live_step (live : bool) (e : event) : bool :=
  match e with
  | ev_open _ _ _ fd => negb (fd =? -1)
  | ev_close _ r => if r =? 0 then false else live
  | _ => live
  end.

Definition handle_live (tr : list event) : bool :=
  fold_left live_step tr false.

(** An event that neither acquires nor releases a descriptor. *)
Definition quiet (e : event) : bool :=
  match e with
  | ev_open _ _ _ _ => false
  | ev_close _ r => negb (r =? 0)
  | _ => true
  end.

(** The same reading, spelled out: the trace ends with a successful [open]
    followed only by quiet events. *)
Definition last_open_stands (tr : list event) : Prop :=
  exists before path flags mode fd after,
    tr = before ++ ev_open path flags mode fd :: after
    /\ fd <> -1
    /\ Forall (fun e => quiet e = true) after.

(** No [Open] among the calls. *)
Definition is_Open (o : op) : bool :=
  match o with
  | Op_Open _ => true
  | _ => false
  end.

(** The results of the [Close] calls of a history. *)
Fixpoint Close_results (history : list (op * result)) : list result :=
  match history with
  | [] => []
  | (Op_Close, r) :: rest => r :: Close_results rest
  | _ :: rest => Close_results rest
  end.

(** ** What [lseek] promises on a seekable descriptor *)

(** The origin [whence] selects. *)
Definition seek_base (whence position length : Z) : Z :=
  if whence =? SEEK_SET then 0
  else if whence =? SEEK_CUR then position
  else length.

Definition valid_whence (whence : Z) : bool :=
  (whence =? SEEK_SET) || (whence =? SEEK_CUR) || (whence =? SEEK_END).

(** An offset the file system can hold for a file whose largest offset is
    [limit]. *)
Definition within (limit target : Z) : bool :=
  (0 <=? target) && (target <=? limit).

(** POSIX [lseek] in terms of three observations of the system: the offset
    of an open descriptor ([None] when the descriptor is not open), the
    length of the file behind it, and the largest offset the file system
    and [off_t] allow for it.  On a descriptor whose offset lies within
    that limit, a call moves the offset to origin plus distance when that
    lies between 0 and the limit; otherwise (a negative position, or one
    beyond the limit) it fails with [-1] and moves nothing.  It changes
    neither the length nor the limit. *)
Record seek_laws (os : Posix)
    (offset : World os -> Z -> option Z) (extent limit : World os -> Z -> Z) : Prop :=
  mkSeekLaws {
  lseek_spec : forall w fd distance whence,
    valid_whence whence = true ->
    match offset w fd with
    | None =>
        fst (sys_lseek os fd distance whence w) = -1
        /\ offset (snd (sys_lseek os fd distance whence w)) fd = None
    | Some o =>
        0 <= o <= limit w fd ->
        let target := seek_base whence o (extent w fd) + distance in
        extent (snd (sys_lseek os fd distance whence w)) fd = extent w fd
        /\ limit (snd (sys_lseek os fd distance whence w)) fd = limit w fd
        /\ (if within (limit w fd) target
            then fst (sys_lseek os fd distance whence w) = target
                 /\ offset (snd (sys_lseek os fd distance whence w)) fd = Some target
            else fst (sys_lseek os fd distance whence w) = -1
                 /\ offset (snd (sys_lseek os fd distance whence w)) fd = Some o)
    end
}.

(** ** A small file system in memory

    An instance of [Posix] to run the class on: a flat directory of
    names, files with link semantics (a file lives on while a descriptor
    refers to it), a descriptor table, and a counter of [close] calls that
    are made to fail (as an interrupted or failing flush does), leaving the
    descriptor in place. *)
Module Mem.

Section Assoc.
Context {K V : Type} (eqb : K -> K -> bool).

Fixpoint assoc (k : K) (l : list (K * V)) : option V :=
  match l with
  | [] => None
  | (k', v) :: rest => if eqb k k' then Some v else assoc k rest
  end.

Fixpoint drop (k : K) (l : list (K * V)) : list (K * V) :=
  match l with
  | [] => []
  | (k', v) :: rest => if eqb k k' then drop k rest else (k', v) :: drop k rest
  end.

Definition put (k : K) (v : V) (l : list (K * V)) : list (K * V) :=
  (k, v) :: drop k l.
End Assoc.

(** An open file description: the file, the offset, the flags of [open]. *)
Record ofd : Type := mkOfd {
  of_ino : N;
  of_pos : N;
  of_flags : Z
}.

Record fs : Type := mkFs {
  dir : list (string * N);
  inodes : list (N * list byte);
  fdt : list (Z * ofd);
  next_ino : N;
  close_faults : nat
}.

Definition contents (m : fs) (ino : N) : list byte :=
  match assoc N.eqb ino (inodes m) with
  | Some d => d
  | None => []
  end.

Definition file_length (m : fs) (ino : N) : Z :=
  Z.of_nat (List.length (contents m ino)).

(** Descriptors are handed out above the three standard ones. *)
Definition new_fd (m : fs) : Z :=
  1 + fold_right Z.max 2 (map fst (fdt m)).

Definition install (ino : N) (flags : Z) (m : fs) : Z * fs :=
  let fd := new_fd m in
  (fd, {| dir := dir m; inodes := inodes m;
          fdt := put Z.eqb fd {| of_ino := ino; of_pos := 0; of_flags := flags |} (fdt m);
          next_ino := next_ino m; close_faults := close_faults m |}).

Definition open (path : string) (flags : Z) (mode : option Z) (m : fs) : Z * fs :=
  match assoc String.eqb path (dir m) with
  | Some ino => install ino flags m
  | None =>
      if Z.testbit flags 6 then
        let ino := next_ino m in
        install ino flags
          {| dir := put String.eqb path ino (dir m);
             inodes := put N.eqb ino [] (inodes m);
             fdt := fdt m;
             next_ino := N.succ ino; close_faults := close_faults m |}
      else (-1, m)
  end.

Definition close (fd : Z) (m : fs) : Z * fs :=
  match assoc Z.eqb fd (fdt m) with
  | None => (-1, m)
  | Some _ =>
      match close_faults m with
      | S k => (-1, {| dir := dir m; inodes := inodes m; fdt := fdt m;
                       next_ino := next_ino m; close_faults := k |})
      | O => (0, {| dir := dir m; inodes := inodes m; fdt := drop Z.eqb fd (fdt m);
                    next_ino := next_ino m; close_faults := O |})
      end
  end.

Definition set_pos (fd : Z) (d : ofd) (pos : N) (m : fs) : fs :=
  {| dir := dir m; inodes := inodes m;
     fdt := put Z.eqb fd {| of_ino := of_ino d; of_pos := pos; of_flags := of_flags d |} (fdt m);
     next_ino := next_ino m; close_faults := close_faults m |}.

(** The largest offset of a file: sixteen tebibytes less one block of four
    kibibytes, the limit of ext4 with such blocks.  It is far below the
    largest [off_t], so no position the system accepts overflows. *)
Definition max_offset : Z := 17592186040320.

Definition lseek (fd distance whence : Z) (m : fs) : Z * fs :=
  match assoc Z.eqb fd (fdt m) with
  | None => (-1, m)
  | Some d =>
      if valid_whence whence then
        let target := seek_base whence (Z.of_N (of_pos d)) (file_length m (of_ino d)) + distance in
        if within max_offset target then (target, set_pos fd d (Z.to_N target) m)
        else (-1, m)
      else (-1, m)
  end.

Definition access_mode (flags : Z) : Z := Z.land flags 3.

Definition read (fd : Z) (count : N) (m : fs) : (Z * list byte) * fs :=
  match assoc Z.eqb fd (fdt m) with
  | None => ((-1, []), m)
  | Some d =>
      if access_mode (of_flags d) =? O_WRONLY then ((-1, []), m)
      else
        let data := firstn (N.to_nat count) (skipn (N.to_nat (of_pos d)) (contents m (of_ino d))) in
        let n := N.of_nat (List.length data) in
        ((Z.of_N n, data), set_pos fd d (of_pos d + n) m)
  end.

(** Bytes written at an offset replace what is there and extend the file;
    a gap before the offset reads as zeros. *)
Definition overlay (old : list byte) (pos : nat) (new : list byte) : list byte :=
  firstn pos old ++ repeat x00 (pos - List.length old) ++ new
  ++ skipn (pos + List.length new) old.

Definition write (fd : Z) (buffer : list byte) (count : N) (m : fs) : Z * fs :=
  match assoc Z.eqb fd (fdt m) with
  | None => (-1, m)
  | Some d =>
      if access_mode (of_flags d) =? O_RDONLY then (-1, m)
      else
        let data := firstn (N.to_nat count) buffer in
        let n := N.of_nat (List.length data) in
        let m' := {| dir := dir m;
                     inodes := put N.eqb (of_ino d)
                                 (overlay (contents m (of_ino d)) (N.to_nat (of_pos d)) data)
                                 (inodes m);
                     fdt := fdt m; next_ino := next_ino m;
                     close_faults := close_faults m |} in
        (Z.of_N n, set_pos fd d (of_pos d + n) m')
  end.

Definition unlink (path : string) (m : fs) : Z * fs :=
  match assoc String.eqb path (dir m) with
  | None => (-1, m)
  | Some _ => (0, {| dir := drop String.eqb path (dir m); inodes := inodes m;
                     fdt := fdt m; next_ino := next_ino m;
                     close_faults := close_faults m |})
  end.

Definition rename (old_path new_path : string) (m : fs) : Z * fs :=
  match assoc String.eqb old_path (dir m) with
  | None => (-1, m)
  | Some ino => (0, {| dir := put String.eqb new_path ino (drop String.eqb old_path (dir m));
                       inodes := inodes m; fdt := fdt m; next_ino := next_ino m;
                       close_faults := close_faults m |})
  end.

Definition no_tm : tm :=
  {| tm_sec := 0; tm_min := 0; tm_hour := 0; tm_mday := 0; tm_mon := 0;
     tm_year := 0; tm_wday := 0; tm_yday := 0; tm_isdst := 0 |}.

Definition no_stat : stat_t :=
  {| st_size := 0; st_atime := 0; st_mtime := 0; st_ctime := 0 |}.

Definition stat_of (m : fs) (ino : N) : stat_t :=
  {| st_size := file_length m ino; st_atime := 0; st_mtime := 0; st_ctime := 0 |}.

Definition stat (path : string) (m : fs) : Z * stat_t :=
  match assoc String.eqb path (dir m) with
  | None => (-1, no_stat)
  | Some ino => (0, stat_of m ino)
  end.

Definition fstat (fd : Z) (m : fs) : Z * stat_t :=
  match assoc Z.eqb fd (fdt m) with
  | None => (-1, no_stat)
  | Some d => (0, stat_of m (of_ino d))
  end.

Definition access (path : string) (amode : Z) (m : fs) : Z :=
  match assoc String.eqb path (dir m) with
  | None => -1
  | Some _ => 0
  end.

(** Seconds since the epoch as a time of day in UTC; dates are not needed. *)
Definition localtime_r (t : Z) : option tm :=
  if t <? 0 then None
  else Some {| tm_sec := t mod 60; tm_min := (t / 60) mod 60; tm_hour := (t / 3600) mod 24;
               tm_mday := 1; tm_mon := 0; tm_year := 70;
               tm_wday := 4; tm_yday := 0; tm_isdst := 0 |}.

Definition posix : Posix :=
  {| World := fs;
     sys_open := open; sys_close := close; sys_lseek := lseek;
     sys_read := read; sys_write := write;
     sys_unlink := unlink; sys_rename := rename;
     sys_stat := stat; sys_fstat := fstat; sys_access := access;
     sys_localtime_r := localtime_r |}.

(** The empty file system; the same with [k] failing [close] calls ahead. *)
Definition empty : fs :=
  {| dir := []; inodes := []; fdt := []; next_ino := 1; close_faults := O |}.

Definition failing_closes (k : nat) (m : fs) : fs :=
  {| dir := dir m; inodes := inodes m; fdt := fdt m; next_ino := next_ino m;
     close_faults := k |}.

(** The observations [seek_laws] asks for. *)
Definition offset_of (m : fs) (fd : Z) : option Z :=
  match assoc Z.eqb fd (fdt m) with
  | None => None
  | Some d => Some (Z.of_N (of_pos d))
  end.

Definition extent_of (m : fs) (fd : Z) : Z :=
  match assoc Z.eqb fd (fdt m) with
  | None => 0
  | Some d => file_length m (of_ino d)
  end.

Definition limit_of (m : fs) (fd : Z) : Z := max_offset.

End Mem.

(** ** Vocabulary of the statements *)

Definition state_of {os : Posix} (f : File) (w : World os) (tr : list event) : State os :=
  {| this := f; mach := {| world := w; trace := tr |} |}.

Definition with_handle (f : File) (h : Z) : File :=
  {| file_handle_ := h; file_path_ := file_path_ f |}.

(** The descriptor field mirrors the trace: it is present exactly when the
    trace says a descriptor is held. *)
Definition mirrors {os : Posix} (s : State os) : Prop :=
  negb (file_handle_ (this s) =? -1) = handle_live (trace (mach s)).

(** A static function run beside a File: its answer, the machine it
    leaves, and the File as it was. *)
Definition beside {os : Posix} {A : Type}
    (f : File) (m : Machine os) (c : ST (Machine os) A) : A * State os :=
  (fst (c m), {| this := f; mach := snd (c m) |}).

(** The flags and the permission bits [Open] passes to [open]. *)
Definition open_flags (file_mode : FileMode) : Z :=
  match file_mode with
  | ckOPEN_READ => O_RDONLY
  | ckOPEN_WRITE => Z.lor O_CREAT O_WRONLY
  end.

Definition open_perm (file_mode : FileMode) : option Z :=
  match file_mode with
  | ckOPEN_READ => None
  | ckOPEN_WRITE => Some (Z.lor S_IRUSR S_IWUSR)
  end.

(** ** Files used in the examples *)

Definition a_txt : Path := mkPath "a.txt".
Definition b_txt : Path := mkPath "b.txt".
Definition c_txt : Path := mkPath "c.txt".

(** A file system holding [a.txt] (three bytes) and [b.txt] (one byte). *)
Definition two_files : Mem.fs :=
  {| Mem.dir := [("a.txt"%string, 1%N); ("b.txt"%string, 2%N)];
     Mem.inodes := [(1%N, [x01; x02; x03]); (2%N, [x0a])];
     Mem.fdt := []; Mem.next_ino := 3; Mem.close_faults := O |}.

(** Descriptor 3 open for reading on file 1, at offset [pos]. *)
Definition reading_at (pos : N) : list (Z * Mem.ofd) :=
  [(3, {| Mem.of_ino := 1; Mem.of_pos := pos; Mem.of_flags := O_RDONLY |})].

(** [two_files] with [a.txt] open on descriptor 3 at offset [pos]. *)
Definition a_open_at (pos : N) : Mem.fs :=
  {| Mem.dir := Mem.dir two_files;
     Mem.inodes := Mem.inodes two_files;
     Mem.fdt := reading_at pos;
     Mem.next_ino := 3; Mem.close_faults := O |}.

Definition a_open : Mem.fs := a_open_at 0.

(** The same after the name [a.txt] has been unlinked behind the File's
    back: the descriptor still refers to the file, the name is gone. *)
Definition a_orphaned : Mem.fs :=
  {| Mem.dir := [("b.txt"%string, 2%N)];
     Mem.inodes := Mem.inodes two_files;
     Mem.fdt := reading_at 0;
     Mem.next_ino := 3; Mem.close_faults := O |}.

(** What is left of [a_orphaned] once descriptor 3 is closed. *)
Definition only_b : Mem.fs :=
  {| Mem.dir := [("b.txt"%string, 2%N)];
     Mem.inodes := Mem.inodes two_files;
     Mem.fdt := [];
     Mem.next_ino := 3; Mem.close_faults := O |}.

(** [File(a.txt)] holding descriptor 3. *)
Definition file_a_open : File := {| file_handle_ := 3; file_path_ := a_txt |}.

(** A File and a trace on the file system in memory. *)
Definition on_mem (f : File) (w : Mem.fs) (tr : list event) : State Mem.posix :=
  state_of (os := Mem.posix) f w tr.

(** [File(a.txt)] is created on an empty file system, opened for writing
    and renamed to [b.txt]. *)
Definition open_then_rename : list (op * result) * State Mem.posix :=
  run [Op_Open ckOPEN_WRITE; Op_Rename b_txt] (fresh (os := Mem.posix) a_txt Mem.empty).

(** ** Every member function as a call *)

Inductive call : Type :=
| Call_Open (file_mode : FileMode)
| Call_Close
| Call_Test
| Call_Seek (distance : Z) (whence : FileWhence)
| Call_Tell
| Call_Read (count : N)
| Call_Write (buffer : list byte) (count : N)
| Call_Exist
| Call_Remove
| Call_Rename (new_file_path : Path)
| Call_Time (out : tm * tm * tm)
| Call_Access (file_mode : FileMode)
| Call_Size.

Inductive answer : Type :=
| A_bool (b : bool)
| A_int (n : Z)
| A_read (n : Z) (data : list byte)
| A_time (b : bool) (out : tm * tm * tm).

Definition perform {os : Posix} (c : call) : ST (State os) answer :=
  match c with
  | Call_Open file_mode => b <- Open file_mode ;; ret (A_bool b)
  | Call_Close => b <- Close ;; ret (A_bool b)
  | Call_Test => b <- Test ;; ret (A_bool b)
  | Call_Seek distance whence => n <- Seek distance whence ;; ret (A_int n)
  | Call_Tell => n <- Tell ;; ret (A_int n)
  | Call_Read count => r <- Read count ;; ret (A_read (fst r) (snd r))
  | Call_Write buffer count => n <- Write buffer count ;; ret (A_int n)
  | Call_Exist => b <- Exist ;; ret (A_bool b)
  | Call_Remove => b <- Remove ;; ret (A_bool b)
  | Call_Rename new_file_path => b <- Rename new_file_path ;; ret (A_bool b)
  | Call_Time out => r <- Time out ;; ret (A_time (fst r) (snd r))
  | Call_Access file_mode => b <- Access file_mode ;; ret (A_bool b)
  | Call_Size => n <- Size ;; ret (A_int n)
  end.

(** The calls in order; the value pairs each call with its answer. *)
Fixpoint perform_all {os : Posix} (cs : list call)
  : ST (State os) (list (call * answer)) :=
  match cs with
  | [] => ret []
  | c :: rest =>
      a <- perform c ;;
      h <- perform_all rest ;;
      ret ((c, a) :: h)
  end.

(** The calls that do nothing but answer on a File that is not open. *)
Definition needs_handle (c : call) : bool :=
  match c with
  | Call_Close | Call_Test | Call_Seek _ _ | Call_Tell
  | Call_Read _ | Call_Write _ _ => true
  | _ => false
  end.

(** What such a call answers then. *)
Definition refusal (c : call) : answer :=
  match c with
  | Call_Read _ => A_read (-1) []
  | Call_Seek _ _ | Call_Tell | Call_Write _ _ => A_int (-1)
  | _ => A_bool false
  end.

(** The path of a File after a call: a [Rename] that answered true moved
    it, nothing else does. *)
Definition path_step (p : Path) (e : call * answer) : Path :=
  match e with
  | (Call_Rename new_file_path, A_bool true) => new_file_path
  | _ => p
  end.

(** ** Auditing a trace for the use of descriptors *)

(** The descriptor a call works on. *)
Definition descriptor_of (e : event) : option Z :=
  match e with
  | ev_close fd _ | ev_lseek fd _ _ _ | ev_read fd _ _
  | ev_write fd _ _ _ | ev_fstat fd _ => Some fd
  | _ => None
  end.

(** With [held] the descriptor in hand, if any: an [open] is in order only
    with none in hand, a call on a descriptor only on the one in hand. *)
Definition permitted (held : option Z) (e : event) : bool :=
  match e with
  | ev_open _ _ _ _ =>
      match held with
      | None => true
      | Some _ => false
      end
  | _ =>
      match descriptor_of e, held with
      | None, _ => true
      | Some fd, Some h => fd =? h
      | Some _, None => false
      end
  end.

(** The descriptor in hand after an event. *)
Definition next_held (held : option Z) (e : event) : option Z :=
  match e with
  | ev_open _ _ _ fd => if fd =? -1 then None else Some fd
  | ev_close _ r => if r =? 0 then None else held
  | _ => held
  end.

Definition audit (st : bool * option Z) (e : event) : bool * option Z :=
  (fst st && permitted (snd st) e, next_held (snd st) e).

(** From a system in which the program holds no descriptor: whether every
    event of the trace was in order, and the descriptor in hand at its end. *)
Definition audited (tr : list event) : bool * option Z :=
  fold_left audit tr (true, None).

Definition disciplined (tr : list event) : bool := fst (audited tr).

Definition held (tr : list event) : option Z := snd (audited tr).

(** The descriptor field as an option, and back. *)
Definition handle_opt (h : Z) : option Z :=
  if h =? -1 then None else Some h.

Definition field_of (held : option Z) : Z :=
  match held with
  | None => -1
  | Some h => h
  end.

(** The origin and distance of a [Seek] as a position, given the offset
    and the length. *)
Definition seek_target (whence : FileWhence) (position length distance : Z) : Z :=
  match whence with
  | ckFILE_BEGIN => distance
  | ckFILE_CURRENT => position + distance
  | ckFILE_END => length + distance
  end.

(** ** Auditing a trace for renames onto a name in use *)

(** The name the last [stat] did not find, as long as only [close] calls
    have followed it; a [rename] is in order when its target is that name. *)
Definition guard (st : bool * option string) (e : event) : bool * option string :=
  match e with
  | ev_stat path rc => (fst st, if rc =? 0 then None else Some path)
  | ev_close _ _ => st
  | ev_rename _ new_path _ =>
      (fst st && match snd st with
                 | Some path => String.eqb path new_path
                 | None => false
                 end,
       None)
  | _ => (fst st, None)
  end.

Definition renames_guarded (tr : list event) : bool :=
  fst (fold_left guard tr (true, None)).

(** The calls that only ask. *)
Definition is_query (c : call) : bool :=
  match c with
  | Call_Test | Call_Exist | Call_Time _ | Call_Access _ => true
  | _ => false
  end.

(** A machine on the file system in memory. *)
Definition mem_machine (w : Mem.fs) (tr : list event) : Machine Mem.posix :=
  {| world := w : World Mem.posix; trace := tr |}.

(** Three empty slots for [Time]. *)
Definition no_times : tm * tm * tm := (Mem.no_tm, Mem.no_tm, Mem.no_tm).

(** The trace is in order and the descriptor field is the descriptor in
    hand. *)
Definition in_hand {os : Posix} (s : State os) : Prop :=
  audited (trace (mach s)) = (true, handle_opt (file_handle_ (this s))).

(** * Theorems *)

Ltac unfold_calls :=
  unfold c_open, c_close, c_lseek, c_read, c_write, c_unlink, c_rename,
         c_stat, c_fstat, c_access, syscall, query in *.

Ltac unfold_st :=
  unfold bind, ret, lift, get_handle, get_path, set_handle, set_path,
         state_of, with_handle in *;
  unfold_calls; cbn [this mach world trace file_handle_ file_path_ fst snd] in *.

Ltac reduce_st :=
  cbn beta iota delta [this mach world trace file_handle_ file_path_ fst snd negb] in *.

(** Decides a test of the descriptor field from a hypothesis on it. *)
Ltac handle_test :=
  match goal with
  | H : ?h = -1 |- context [?h =? -1] => rewrite (proj2 (Z.eqb_eq h (-1)) H)
  | H : ?h <> -1 |- context [?h =? -1] => rewrite (proj2 (Z.eqb_neq h (-1)) H)
  end; reduce_st.

Section Closing.

Context {os : Posix}.
Implicit Types (f : File) (w : World os) (tr : list event).

Lemma Close_absent f w tr :
  file_handle_ f = -1 ->
  Close (state_of f w tr) = (false, state_of f w tr).
Proof.
  intros H. unfold Close. unfold_st. now handle_test.
Qed.

Lemma Close_released f w tr w' :
  file_handle_ f <> -1 ->
  sys_close os (file_handle_ f) w = (0, w') ->
  Close (state_of f w tr)
  = (true, state_of (with_handle f (-1)) w' (tr ++ [ev_close (file_handle_ f) 0])).
Proof.
  intros H E. unfold Close. unfold_st. handle_test. now rewrite E.
Qed.

Lemma Close_refused f w tr r w' :
  file_handle_ f <> -1 ->
  sys_close os (file_handle_ f) w = (r, w') ->
  r <> 0 ->
  Close (state_of f w tr)
  = (false, state_of f w' (tr ++ [ev_close (file_handle_ f) r])).
Proof.
  intros H E R. unfold Close. unfold_st. handle_test. rewrite E.
  now rewrite (proj2 (Z.eqb_neq r 0) R).
Qed.

(** Whatever [Close] answers, it leaves the path alone, and the descriptor
    is absent afterwards exactly when it was absent or has been released. *)
Lemma Close_path (s : State os) :
  file_path_ (this (snd (Close s))) = file_path_ (this s).
Proof.
  unfold Close. unfold_st.
  destruct (file_handle_ (this s) =? -1); [reflexivity|].
  destruct (sys_close os _ _) as [r w']. now destruct (r =? 0).
Qed.

Lemma Close_keeps_absent (s : State os) :
  file_handle_ (this s) = -1 ->
  file_handle_ (this (snd (Close s))) = -1.
Proof.
  intros H. destruct s as [f [w tr]].
  pose proof (Close_absent f w tr H) as E. unfold state_of in E.
  now rewrite E.
Qed.

End Closing.

Ltac unfold_methods :=
  unfold exec in *;
  unfold Remove, Rename, Open, Size, Exist, Access, Hidden, Rename_static in *;
  unfold Close, Test, Seek, Tell, Read, Write, Exist_static, Size_static,
         Access_static, Hidden_static, Remove_static in *.

(** Names the result of the next call, or splits on the next test. *)
Ltac split_next :=
  match goal with
  | |- context [sys_open ?os ?a ?b ?c ?w] => destruct (sys_open os a b c w) as [? ?] eqn:?
  | |- context [sys_close ?os ?a ?w] => destruct (sys_close os a w) as [? ?] eqn:?
  | |- context [sys_lseek ?os ?a ?b ?c ?w] => destruct (sys_lseek os a b c w) as [? ?] eqn:?
  | |- context [sys_read ?os ?a ?b ?w] => destruct (sys_read os a b w) as [[? ?] ?] eqn:?
  | |- context [sys_write ?os ?a ?b ?c ?w] => destruct (sys_write os a b c w) as [? ?] eqn:?
  | |- context [sys_unlink ?os ?a ?w] => destruct (sys_unlink os a w) as [? ?] eqn:?
  | |- context [sys_rename ?os ?a ?b ?w] => destruct (sys_rename os a b w) as [? ?] eqn:?
  | |- context [sys_stat ?os ?a ?w] => destruct (sys_stat os a w) as [? ?] eqn:?
  | |- context [sys_fstat ?os ?a ?w] => destruct (sys_fstat os a w) as [? ?] eqn:?
  | |- context [?h =? ?k] => destruct (Z.eqb_spec h k)
  | |- context [match ?w with ckFILE_CURRENT => _ | _ => _ end] => destruct w
  | |- context [match ?m with ckOPEN_READ => _ | _ => _ end] => destruct m
  end; reduce_st.

Section Runs.

Context {os : Posix}.
Implicit Types (s : State os) (o : op) (ops : list op).

Lemma run_nil s : run [] s = ([], s).
Proof. reflexivity. Qed.

Lemma run_cons o ops s :
  run (o :: ops) s
  = ((o, fst (exec o s)) :: fst (run ops (snd (exec o s))),
     snd (run ops (snd (exec o s)))).
Proof.
  cbn [run]. unfold bind, ret.
  destruct (exec o s) as [r s1]. cbn [fst snd].
  now destruct (run ops s1) as [h s2].
Qed.

(** Only [Open] can make an absent descriptor present. *)
Lemma exec_keeps_absent o s :
  is_Open o = false ->
  file_handle_ (this s) = -1 ->
  file_handle_ (this (snd (exec o s))) = -1.
Proof.
  intros Ho H. destruct s as [[h p] [w tr]]. simpl in H. subst h.
  destruct o; try discriminate Ho; unfold_methods; unfold_st;
    repeat split_next; try reflexivity; try congruence.
Qed.

Lemma run_keeps_absent ops s :
  forallb (fun o => negb (is_Open o)) ops = true ->
  file_handle_ (this s) = -1 ->
  file_handle_ (this (snd (run ops s))) = -1.
Proof.
  revert s. induction ops as [|o ops IH]; intros s Hops H.
  - exact H.
  - simpl in Hops. apply andb_prop in Hops as [Ho Hops].
    rewrite run_cons. cbn [snd]. apply IH; [exact Hops|].
    apply exec_keeps_absent; [|exact H].
    now destruct (is_Open o).
Qed.

(** On a File whose descriptor is absent, every [Close] of a run without
    [Open] answers false. *)
Lemma run_absent_Close_false ops s :
  forallb (fun o => negb (is_Open o)) ops = true ->
  file_handle_ (this s) = -1 ->
  Forall (fun r => r = R_bool false) (Close_results (fst (run ops s))).
Proof.
  revert s. induction ops as [|o ops IH]; intros s Hops H.
  - constructor.
  - simpl in Hops. apply andb_prop in Hops as [Ho Hops].
    assert (Hnext : file_handle_ (this (snd (exec o s))) = -1).
    { apply exec_keeps_absent; [now destruct (is_Open o)|exact H]. }
    rewrite run_cons. cbn [fst].
    specialize (IH _ Hops Hnext).
    destruct o; cbn [Close_results]; try exact IH.
    constructor; [|exact IH].
    destruct s as [f [w tr]]. cbn [this file_handle_] in H.
    pose proof (Close_absent f w tr H) as E. unfold state_of in E.
    unfold exec, bind, ret. now rewrite E.
Qed.

(** A [Close] that answers true leaves the descriptor absent. *)
Lemma Close_true_absent s :
  fst (Close s) = true ->
  file_handle_ (this (snd (Close s))) = -1.
Proof.
  destruct s as [[h p] [w tr]]. unfold Close. unfold_st.
  repeat split_next; cbn [fst snd]; congruence.
Qed.

(** Whatever the system does: in a run without [Open], once a [Close] has
    answered true every later [Close] answers false. *)
Lemma Close_true_once ops s earlier later :
  forallb (fun o => negb (is_Open o)) ops = true ->
  fst (run ops s) = earlier ++ (Op_Close, R_bool true) :: later ->
  Forall (fun r => r = R_bool false) (Close_results later).
Proof.
  revert s earlier. induction ops as [|o ops IH]; intros s earlier Hops E.
  - rewrite run_nil in E. now destruct earlier.
  - simpl in Hops. apply andb_prop in Hops as [Ho Hops].
    rewrite run_cons in E. cbn [fst] in E.
    destruct earlier as [|e earlier]; cbn [app] in E.
    + injection E as Eo Er El. subst o. rewrite <- El.
      apply run_absent_Close_false; [exact Hops|].
      cbn [exec] in Er |- *. unfold bind, ret in Er |- *.
      pose proof (Close_true_absent s) as A.
      destruct (Close s) as [c s1]. cbn [fst snd] in *.
      apply A. congruence.
    + injection E as _ E. exact (IH _ _ Hops E).
Qed.

End Runs.

Section Contracts.

Context {os : Posix}.
Implicit Types (f : File) (w : World os) (tr : list event) (s : State os).

(** C4.  [Close] on an absent descriptor answers false and makes no call.
    On a present descriptor it calls [close] once: when that succeeds the
    descriptor becomes absent and the answer is true; when it fails the
    File is as it was and the answer is false.  Hence, on an open File
    whose [close] succeeds, the first [Close] answers true and every later
    [Close] of a continuation without [Open] answers false; and whatever
    the system does, in a run without [Open] no [Close] answers true after
    one that did. *)
Theorem Close_contract f w tr :
  (file_handle_ f = -1 ->
     Close (state_of f w tr) = (false, state_of f w tr))
  /\ (file_handle_ f <> -1 ->
      forall w', sys_close os (file_handle_ f) w = (0, w') ->
      Close (state_of f w tr)
      = (true, state_of (with_handle f (-1)) w' (tr ++ [ev_close (file_handle_ f) 0])))
  /\ (file_handle_ f <> -1 ->
      forall r w', sys_close os (file_handle_ f) w = (r, w') -> r <> 0 ->
      Close (state_of f w tr)
      = (false, state_of f w' (tr ++ [ev_close (file_handle_ f) r])))
  /\ (file_handle_ f <> -1 ->
      forall w', sys_close os (file_handle_ f) w = (0, w') ->
      forall ops, forallb (fun o => negb (is_Open o)) ops = true ->
      exists later,
        fst (run (Op_Close :: ops) (state_of f w tr)) = (Op_Close, R_bool true) :: later
        /\ Forall (fun r => r = R_bool false) (Close_results later))
  /\ (forall ops earlier later,
      forallb (fun o => negb (is_Open o)) ops = true ->
      fst (run ops (state_of f w tr)) = earlier ++ (Op_Close, R_bool true) :: later ->
      Forall (fun r => r = R_bool false) (Close_results later)).
Proof.
  split; [apply Close_absent|].
  split; [intros H w'; now apply Close_released|].
  split; [intros H r w'; now apply Close_refused|].
  split; [|intros ops earlier later; apply Close_true_once].
  intros H w' E ops Hops.
  rewrite run_cons. cbn [exec]. unfold bind at 1 2, ret at 1 2.
  rewrite (Close_released f w tr w' H E). cbn [fst snd].
  eexists. split; [reflexivity|].
  now apply run_absent_Close_false.
Qed.

(** C3.  [Open] on a present descriptor calls [close] first.  When that
    fails, no [open] is made, the answer is false and the File keeps the
    descriptor it had.  When it succeeds, or when the descriptor was absent,
    [Open] calls [open] with the flags of the mode, stores what it returns,
    and answers whether that is a descriptor. *)
Theorem Open_contract f w tr (file_mode : FileMode) :
  let path := Name (file_path_ f) in
  let flags := open_flags file_mode in
  let perm := open_perm file_mode in
  (file_handle_ f <> -1 ->
     forall r w', sys_close os (file_handle_ f) w = (r, w') -> r <> 0 ->
     Open file_mode (state_of f w tr)
     = (false, state_of f w' (tr ++ [ev_close (file_handle_ f) r])))
  /\ (file_handle_ f <> -1 ->
      forall w1 fd w2,
      sys_close os (file_handle_ f) w = (0, w1) ->
      sys_open os path flags perm w1 = (fd, w2) ->
      Open file_mode (state_of f w tr)
      = (negb (fd =? -1),
         state_of (with_handle f fd) w2
           (tr ++ [ev_close (file_handle_ f) 0; ev_open path flags perm fd])))
  /\ (file_handle_ f = -1 ->
      forall fd w2,
      sys_open os path flags perm w = (fd, w2) ->
      Open file_mode (state_of f w tr)
      = (negb (fd =? -1),
         state_of (with_handle f fd) w2 (tr ++ [ev_open path flags perm fd]))).
Proof.
  intros path flags perm. subst path flags perm.
  split; [|split].
  - intros H r w' E R. unfold Open, Close. unfold_st. repeat handle_test.
    rewrite E. reduce_st. now rewrite (proj2 (Z.eqb_neq r 0) R).
  - intros H w1 fd w2 E1 E2. unfold Open, Close. unfold_st. repeat handle_test.
    rewrite E1. reduce_st. cbn [Z.eqb negb].
    destruct file_mode; cbn [open_flags open_perm] in E2; reduce_st;
      rewrite E2; reduce_st; now rewrite <- app_assoc.
  - intros H fd w2 E2. unfold Open. unfold_st. repeat handle_test. cbn [negb].
    destruct file_mode; cbn [open_flags open_perm] in E2; reduce_st;
      rewrite E2; reduce_st; reflexivity.
Qed.

(** C7.  With the descriptor absent, [Seek], [Tell], [Read] and [Write]
    answer [-1]; the File, the system and the trace are what they were. *)
Theorem closed_io_is_inert f w tr :
  file_handle_ f = -1 ->
  (forall distance whence,
     Seek distance whence (state_of f w tr) = (-1, state_of f w tr))
  /\ Tell (state_of f w tr) = (-1, state_of f w tr)
  /\ (forall count, Read count (state_of f w tr) = ((-1, []), state_of f w tr))
  /\ (forall buffer count,
        Write buffer count (state_of f w tr) = (-1, state_of f w tr)).
Proof.
  intros H. repeat split; intros;
    unfold Seek, Tell, Read, Write; unfold_st; now handle_test.
Qed.

(** C9.  [Remove] runs [Close] whatever the state of the descriptor and
    whatever [Close] answers, then calls [unlink] on the path in the
    system [Close] left; its answer is that of [unlink] alone. *)
Theorem Remove_contract s :
  let closed := snd (Close s) in
  let path := Name (file_path_ (this s)) in
  let unlinked := sys_unlink os path (world (mach closed)) in
  Remove s
  = (fst unlinked =? 0,
     {| this := this closed;
        mach := {| world := snd unlinked;
                   trace := trace (mach closed) ++ [ev_unlink path (fst unlinked)] |} |})
  /\ (fst (Remove s) = true <-> fst unlinked = 0).
Proof.
  intros closed path unlinked.
  assert (E : Remove s
              = (fst unlinked =? 0,
                 {| this := this closed;
                    mach := {| world := snd unlinked;
                               trace := trace (mach closed)
                                        ++ [ev_unlink path (fst unlinked)] |} |})).
  { subst closed path unlinked. rewrite <- (Close_path s).
    unfold Remove. unfold bind at 1. destruct (Close s) as [c s1]. cbn [snd].
    unfold_st. now destruct (sys_unlink os _ _) as [r w']. }
  split; [exact E|]. rewrite E. cbn [fst]. apply Z.eqb_eq.
Qed.

(** C10.  [Rename] onto a free name closes the descriptor and only then
    calls [rename].  When [close] succeeds and [rename] fails, the answer
    is false and the path is the old one, yet the descriptor is absent. *)
Theorem Rename_failure_loses_handle f w tr (new_file_path : Path) :
  let old_name := Name (file_path_ f) in
  let new_name := Name new_file_path in
  forall w1 r w2,
  file_handle_ f <> -1 ->
  fst (sys_stat os new_name w) <> 0 ->
  sys_close os (file_handle_ f) w = (0, w1) ->
  sys_rename os old_name new_name w1 = (r, w2) ->
  r <> 0 ->
  Rename new_file_path (state_of f w tr)
  = (false,
     state_of (with_handle f (-1)) w2
       (tr ++ [ev_stat new_name (fst (sys_stat os new_name w));
               ev_close (file_handle_ f) 0;
               ev_rename old_name new_name r])).
Proof.
  intros old_name new_name w1 r w2 H Hstat Hclose Hrename Hr.
  subst old_name new_name.
  unfold Rename, Exist_static, Close. unfold_st.
  rewrite (proj2 (Z.eqb_neq _ 0) Hstat). reduce_st.
  handle_test. rewrite Hclose. reduce_st. cbn [Z.eqb]. reduce_st.
  rewrite Hrename. reduce_st. rewrite (proj2 (Z.eqb_neq r 0) Hr).
  now rewrite <- !app_assoc.
Qed.

(** [Rename] onto a name that exists: one [stat], the answer false, and
    nothing else happens; the descriptor is the one the File had. *)
Lemma Rename_onto_existing f w tr (new_file_path : Path) :
  fst (sys_stat os (Name new_file_path) w) = 0 ->
  Rename new_file_path (state_of f w tr)
  = (false, state_of f w (tr ++ [ev_stat (Name new_file_path) 0])).
Proof.
  intros Hstat. unfold Rename, Exist_static. unfold_st.
  now rewrite Hstat.
Qed.

End Contracts.

Section Queries.

Context {os : Posix}.
Implicit Types (f : File) (m : Machine os) (w : World os) (tr : list event).

Lemma seek_base_set position length : seek_base SEEK_SET position length = 0.
Proof. reflexivity. Qed.

Lemma seek_base_cur position length : seek_base SEEK_CUR position length = position.
Proof. reflexivity. Qed.

Lemma seek_base_end position length : seek_base SEEK_END position length = length.
Proof. reflexivity. Qed.

Lemma Path_eta (p : Path) : mkPath (Name p) = p.
Proof. now destruct p. Qed.

(** C8.  On a File whose descriptor is absent (a File just constructed on a
    path is one), [Exist], [Size], [Time], [Access] and [Hidden] are the
    static functions run on the File's path: same answer, same effect on
    the machine, File unchanged. *)
Theorem instance_agrees_with_static f m :
  file_handle_ f = -1 ->
  let s := {| this := f; mach := m |} in
  let p := file_path_ f in
  Exist s = beside f m (Exist_static p)
  /\ Size s = beside f m (Size_static p)
  /\ (forall out, Time out s = beside f m (Time_static p out))
  /\ (forall file_mode, Access file_mode s = beside f m (Access_static p file_mode))
  /\ Hidden s = beside f m (Hidden_static p).
Proof.
  intros H s p. subst s p. unfold beside.
  split; [|split; [|split; [|split]]]; intros.
  - unfold Exist. unfold_st. handle_test.
    now destruct (Exist_static (file_path_ f) m).
  - unfold Size. unfold_st. handle_test. rewrite Path_eta.
    now destruct (Size_static (file_path_ f) m).
  - unfold Time. destruct out as [[a b] c]. unfold_st. handle_test.
    rewrite Path_eta. now destruct (Time_static (file_path_ f) (a, b, c) m).
  - unfold Access. unfold_st. rewrite Path_eta.
    now destruct (Access_static (file_path_ f) file_mode m).
  - unfold Hidden. unfold_st.
    now destruct (Hidden_static (file_path_ f) m).
Qed.

Lemma within_spec (limit target : Z) :
  within limit target = true <-> 0 <= target <= limit.
Proof.
  unfold within. rewrite andb_true_iff, !Z.leb_le. tauto.
Qed.

Section Seeking.

Variable offset : World os -> Z -> option Z.
Variable extent : World os -> Z -> Z.
Variable limit : World os -> Z -> Z.
Hypothesis laws : seek_laws os offset extent limit.

(** The law, call by call: where the descriptor ends up. *)
Lemma lseek_moves w fd distance whence o :
  valid_whence whence = true ->
  offset w fd = Some o ->
  0 <= o <= limit w fd ->
  let target := seek_base whence o (extent w fd) + distance in
  let r := sys_lseek os fd distance whence w in
  extent (snd r) fd = extent w fd
  /\ limit (snd r) fd = limit w fd
  /\ (within (limit w fd) target = true ->
      fst r = target /\ offset (snd r) fd = Some target)
  /\ (within (limit w fd) target = false ->
      fst r = -1 /\ offset (snd r) fd = Some o).
Proof.
  intros V Ho Hin target r. subst target r.
  pose proof (lseek_spec _ _ _ _ laws w fd distance whence V) as L.
  rewrite Ho in L. specialize (L Hin). cbv zeta in L.
  destruct L as (E & M & L). split; [exact E|]. split; [exact M|].
  destruct (within (limit w fd) _); split; intros; try discriminate; exact L.
Qed.

(** After any [lseek] on a descriptor whose offset lies within the limit,
    the descriptor has an offset within the limit. *)
Lemma lseek_stays_within w fd distance whence o :
  valid_whence whence = true ->
  offset w fd = Some o ->
  0 <= o <= limit w fd ->
  exists o',
    offset (snd (sys_lseek os fd distance whence w)) fd = Some o'
    /\ 0 <= o' <= limit (snd (sys_lseek os fd distance whence w)) fd.
Proof.
  intros V Ho Hin.
  destruct (lseek_moves w fd distance whence o V Ho Hin) as (_ & M & Y & N).
  rewrite M.
  destruct (within (limit w fd) (seek_base whence o (extent w fd) + distance))
    eqn:T.
  - destruct (Y eq_refl) as [_ O]. eexists. split; [exact O|].
    now apply within_spec.
  - destruct (N eq_refl) as [_ O]. exists o. now split.
Qed.

(** Under the laws, [Tell] on a present descriptor whose offset lies
    within the limit answers that offset and leaves it where it is. *)
Lemma Tell_offset f w tr o :
  file_handle_ f <> -1 ->
  offset w (file_handle_ f) = Some o ->
  0 <= o <= limit w (file_handle_ f) ->
  fst (Tell (state_of f w tr)) = o
  /\ offset (world (mach (snd (Tell (state_of f w tr))))) (file_handle_ f) = Some o.
Proof.
  intros H Ho Hin.
  destruct (lseek_moves w (file_handle_ f) 0 SEEK_CUR o eq_refl Ho Hin)
    as (_ & _ & Y & _).
  rewrite seek_base_cur, Z.add_0_r in Y.
  specialize (Y (proj2 (within_spec _ _) Hin)).
  unfold Tell. unfold_st. handle_test.
  destruct (sys_lseek os _ _ _ _) as [r w']. exact Y.
Qed.

(** Under the laws, the three calls of [Size]: a descriptor that is not
    open for seeking gives [-1]; on one whose offset lies within the
    limit, the second call answers the length when the file system can
    hold that offset ([-1] otherwise) and the third brings the offset
    back. *)
Lemma Size_calls f w :
  let h := file_handle_ f in
  let cur := sys_lseek os h 0 SEEK_CUR w in
  let len := sys_lseek os h 0 SEEK_END (snd cur) in
  let back := sys_lseek os h (fst cur) SEEK_SET (snd len) in
  match offset w h with
  | None => fst len = -1
  | Some o =>
      0 <= o <= limit w h ->
      fst cur = o
      /\ fst len = (if within (limit w h) (extent w h) then extent w h else -1)
      /\ offset (snd back) h = Some o
      /\ limit (snd back) h = limit w h
  end.
Proof.
  intros h cur len back.
  destruct (offset w h) as [o|] eqn:Ho.
  - intros Hin.
    destruct (lseek_moves w h 0 SEEK_CUR o eq_refl Ho Hin) as (X1 & M1 & Y1 & _).
    rewrite seek_base_cur, Z.add_0_r in Y1.
    destruct (Y1 (proj2 (within_spec _ _) Hin)) as [R1 O1].
    fold cur in X1, M1, R1, O1.
    assert (Hin1 : 0 <= o <= limit (snd cur) h) by (now rewrite M1).
    destruct (lseek_moves (snd cur) h 0 SEEK_END o eq_refl O1 Hin1)
      as (X2 & M2 & Y2 & N2).
    rewrite seek_base_end, Z.add_0_r, X1, M1 in Y2, N2.
    fold len in X2, M2, Y2, N2.
    destruct (lseek_stays_within (snd cur) h 0 SEEK_END o eq_refl O1 Hin1)
      as (o2 & O2 & Hin2).
    fold len in O2, Hin2.
    destruct (lseek_moves (snd len) h (fst cur) SEEK_SET o2 eq_refl O2 Hin2)
      as (_ & M3 & Y3 & _).
    rewrite seek_base_set, Z.add_0_l in Y3.
    assert (W : within (limit (snd len) h) (fst cur) = true).
    { rewrite R1, M2, M1. now apply within_spec. }
    destruct (Y3 W) as [_ O3].
    fold back in M3, O3. rewrite R1 in O3.
    split; [exact R1|]. split.
    + destruct (within (limit w h) (extent w h)).
      * exact (proj1 (Y2 eq_refl)).
      * exact (proj1 (N2 eq_refl)).
    + split; [exact O3|]. now rewrite M3, M2, M1.
  - pose proof (lseek_spec _ _ _ _ laws w h 0 SEEK_CUR eq_refl) as L1.
    rewrite Ho in L1. destruct L1 as [_ O1]. fold cur in O1.
    pose proof (lseek_spec _ _ _ _ laws (snd cur) h 0 SEEK_END eq_refl) as L2.
    rewrite O1 in L2. exact (proj1 L2).
Qed.

End Seeking.

(** C6.  [Tell] and [Seek(0, CURRENT)] are the same computation: [-1] and
    no call when the descriptor is absent, otherwise the answer of
    [lseek(fd, 0, SEEK_CUR)]; neither changes a member of the File.  All
    this holds of every system.  Where [lseek] obeys its laws, that answer
    is the offset of the descriptor, and the offset is not moved. *)
Theorem Tell_is_Seek_0_CURRENT
    (offset : World os -> Z -> option Z) (extent limit : World os -> Z -> Z)
    (s : State os) :
  let h := file_handle_ (this s) in
  Tell s = Seek 0 ckFILE_CURRENT s
  /\ this (snd (Tell s)) = this s
  /\ this (snd (Seek 0 ckFILE_CURRENT s)) = this s
  /\ (h = -1 -> Tell s = (-1, s))
  /\ (h <> -1 -> fst (Tell s) = fst (sys_lseek os h 0 SEEK_CUR (world (mach s))))
  /\ (seek_laws os offset extent limit ->
      h <> -1 ->
      forall o, offset (world (mach s)) h = Some o -> 0 <= o <= limit (world (mach s)) h ->
      fst (Tell s) = o /\ offset (world (mach (snd (Tell s)))) h = Some o).
Proof.
  intros h. subst h. destruct s as [f [w tr]]. cbn [this mach world].
  assert (T : this (snd (Tell {| this := f; mach := {| world := w; trace := tr |} |}))
              = f).
  { unfold Tell. unfold_st. destruct (file_handle_ f =? -1); [reflexivity|].
    now destruct (sys_lseek os _ _ _ _). }
  split; [reflexivity|].
  split; [exact T|]. split; [exact T|].
  split; [|split].
  - intros H. unfold Tell. unfold_st. now handle_test.
  - intros H. unfold Tell. unfold_st. handle_test.
    now destruct (sys_lseek os _ _ _ _).
  - intros laws H o Ho Hin.
    exact (Tell_offset offset extent limit laws f w tr o H Ho Hin).
Qed.

(** C5.  [Size] on a present descriptor makes three calls: it asks for the
    current offset, moves to the end, and moves to the offset it was
    given; its answer is that of the second call ([-1] when that call
    fails), and the File is unchanged.  This holds of every system.  Where
    [lseek] obeys its laws: a descriptor that cannot be sought gives [-1];
    otherwise the answer is the length of the file ([-1] if the file
    system cannot hold that offset) and the offset is the one before the
    call, so that [Tell] answers the same before and after whenever [Size]
    does not answer [-1]. *)
Theorem Size_contract
    (offset : World os -> Z -> option Z) (extent limit : World os -> Z -> Z)
    f w tr :
  file_handle_ f <> -1 ->
  let h := file_handle_ f in
  let cur := sys_lseek os h 0 SEEK_CUR w in
  let len := sys_lseek os h 0 SEEK_END (snd cur) in
  let back := sys_lseek os h (fst cur) SEEK_SET (snd len) in
  let before := state_of f w tr in
  let after :=
    state_of f (snd back)
      (tr ++ [ev_lseek h 0 SEEK_CUR (fst cur);
              ev_lseek h 0 SEEK_END (fst len);
              ev_lseek h (fst cur) SEEK_SET (fst back)]) in
  Size before = (fst len, after)
  /\ (seek_laws os offset extent limit ->
      match offset w h with
      | None => fst len = -1
      | Some o =>
          0 <= o <= limit w h ->
          fst len = (if within (limit w h) (extent w h) then extent w h else -1)
          /\ offset (snd back) h = Some o
          /\ fst (Tell before) = o
          /\ fst (Tell after) = o
      end)
  /\ (seek_laws os offset extent limit ->
      (forall o, offset w h = Some o -> 0 <= o <= limit w h) ->
      fst (Size before) <> -1 ->
      fst (Tell (snd (Size before))) = fst (Tell before)).
Proof.
  intros H h cur len back before after.
  assert (E : Size before = (fst len, after)).
  { subst before after back len cur h.
    unfold Size, Tell, Seek. unfold_st. repeat handle_test.
    destruct (sys_lseek os (file_handle_ f) 0 SEEK_CUR w) as [c w1].
    reduce_st. repeat handle_test.
    destruct (sys_lseek os (file_handle_ f) 0 SEEK_END w1) as [n w2].
    reduce_st. repeat handle_test.
    destruct (sys_lseek os (file_handle_ f) c SEEK_SET w2) as [r w3].
    reduce_st. now rewrite <- !app_assoc. }
  assert (P : seek_laws os offset extent limit ->
              match offset w h with
              | None => fst len = -1
              | Some o =>
                  0 <= o <= limit w h ->
                  fst len = (if within (limit w h) (extent w h)
                             then extent w h else -1)
                  /\ offset (snd back) h = Some o
                  /\ fst (Tell before) = o /\ fst (Tell after) = o
              end).
  { intros laws.
    pose proof (Size_calls offset extent limit laws f w) as C.
    cbv zeta in C. fold h cur len back in C.
    destruct (offset w h) as [o|] eqn:Ho; [|exact C].
    intros Hin. destruct (C Hin) as (_ & L & O & M).
    split; [exact L|]. split; [exact O|]. split.
    - subst before.
      exact (proj1 (Tell_offset offset extent limit laws f w tr o H Ho Hin)).
    - subst after. apply (Tell_offset offset extent limit laws f); try assumption.
      fold h. now rewrite M. }
  split; [exact E|]. split; [exact P|].
  intros laws Hall. rewrite E. cbn [fst snd]. intros Hn.
  specialize (P laws).
  destruct (offset w h) as [o|]; [|contradiction].
  destruct (P (Hall o eq_refl)) as (_ & _ & B & A). now rewrite A, B.
Qed.

End Queries.

Section Liveness.

(** *** The two readings of the trace agree *)

Lemma handle_live_snoc tr e :
  handle_live (tr ++ [e]) = live_step (handle_live tr) e.
Proof. unfold handle_live. now rewrite fold_left_app. Qed.

Lemma last_open_stands_nil : ~ last_open_stands [].
Proof.
  intros (before & path & flags & mode & fd & after & E & _).
  now destruct before.
Qed.

(** How a trace that ends with [e] can split around its last [open]. *)
Lemma split_snoc (tr before after : list event) (e ev : event) :
  tr ++ [e] = before ++ ev :: after ->
  (after = [] /\ tr = before /\ e = ev)
  \/ (exists after', after = after' ++ [e] /\ tr = before ++ ev :: after').
Proof.
  intros E. destruct after as [|x after] using rev_ind.
  - left. apply app_inj_tail in E as [E1 E2]. now subst.
  - right. exists after.
    change (before ++ ev :: after ++ [x]) with (before ++ (ev :: after) ++ [x]) in E.
    rewrite app_assoc in E. apply app_inj_tail in E as [E1 E2]. now subst.
Qed.

Lemma last_open_stands_quiet tr e :
  quiet e = true ->
  last_open_stands (tr ++ [e]) <-> last_open_stands tr.
Proof.
  intros Q. split.
  - intros (before & path & flags & mode & fd & after & E & Hfd & Hq).
    apply split_snoc in E as [(_ & _ & E)|(after' & Ea & Et)].
    + subst e. discriminate Q.
    + subst after. apply Forall_app in Hq as [Hq _].
      now exists before, path, flags, mode, fd, after'.
  - intros (before & path & flags & mode & fd & after & E & Hfd & Hq).
    exists before, path, flags, mode, fd, (after ++ [e]).
    subst tr. rewrite <- app_assoc. repeat split; try assumption.
    apply Forall_app. split; [assumption|]. now constructor.
Qed.

Lemma last_open_stands_open tr path flags mode fd :
  last_open_stands (tr ++ [ev_open path flags mode fd]) <-> fd <> -1.
Proof.
  split.
  - intros (before & path' & flags' & mode' & fd' & after & E & Hfd & Hq).
    apply split_snoc in E as [(_ & _ & E)|(after' & Ea & Et)].
    + now inversion E; subst.
    + subst after. apply Forall_app in Hq as [_ Hq].
      inversion Hq as [|? ? Q]. discriminate Q.
  - intros Hfd. exists tr, path, flags, mode, fd, []. now repeat split.
Qed.

Lemma last_open_stands_closed tr fd :
  ~ last_open_stands (tr ++ [ev_close fd 0]).
Proof.
  intros (before & path & flags & mode & fd' & after & E & Hfd & Hq).
  apply split_snoc in E as [(_ & _ & E)|(after' & Ea & Et)].
  - discriminate E.
  - subst after. apply Forall_app in Hq as [_ Hq].
    inversion Hq as [|? ? Q]. discriminate Q.
Qed.

Lemma handle_live_spec tr :
  handle_live tr = true <-> last_open_stands tr.
Proof.
  induction tr as [|e tr IH] using rev_ind.
  - split; [discriminate|]. intros H. now apply last_open_stands_nil in H.
  - rewrite handle_live_snoc.
    destruct e; cbn [live_step];
      try (rewrite last_open_stands_quiet by reflexivity; exact IH).
    + rewrite last_open_stands_open, negb_true_iff. apply Z.eqb_neq.
    + match goal with
      | |- context [?r =? 0] => destruct (Z.eqb_spec r 0) as [->|R]
      end.
      * split; [discriminate|]. intros H. now apply last_open_stands_closed in H.
      * rewrite last_open_stands_quiet; [exact IH|].
        cbn. now rewrite (proj2 (Z.eqb_neq _ _) R).
Qed.

Context {os : Posix}.
Implicit Types (s : State os) (o : op) (ops : list op).

Lemma exec_mirrors o s : mirrors s -> mirrors (snd (exec o s)).
Proof.
  unfold mirrors. destruct s as [[h p] [w tr]]. cbn [this mach file_handle_ trace].
  intros I.
  destruct (Z.eqb_spec h (-1)) as [Hh|Hh]; cbn [negb] in I;
  destruct o; unfold_methods; unfold_st;
    repeat split_next;
    rewrite ?handle_live_snoc; cbn [live_step];
    rewrite ?handle_live_snoc; cbn [live_step];
    repeat match goal with
           | H : ?a = ?b |- context [?a =? ?b] => rewrite (proj2 (Z.eqb_eq a b) H)
           | H : ?a <> ?b |- context [?a =? ?b] => rewrite (proj2 (Z.eqb_neq a b) H)
           end;
    cbn [negb]; try congruence; try reflexivity;
    try (rewrite <- I; subst; reflexivity).
Qed.

Lemma run_mirrors ops s : mirrors s -> mirrors (snd (run ops s)).
Proof.
  revert s. induction ops as [|o ops IH]; intros s I; [exact I|].
  rewrite run_cons. cbn [snd]. apply IH. now apply exec_mirrors.
Qed.

(** C1, as the code has it.  After any sequence of calls on a freshly
    constructed File, [Test] answers true exactly when the trace ends with
    an [open] that returned a descriptor followed by no further [open] and
    no successful [close] -- whichever member function ([Close], [Remove],
    [Rename] or a second [Open]) made that [close]. *)
Theorem Test_reads_the_trace (file_path : Path) (w : World os) ops :
  fst (Test (snd (run ops (fresh file_path w)))) = true
  <-> last_open_stands (trace (mach (snd (run ops (fresh file_path w))))).
Proof.
  rewrite <- handle_live_spec.
  assert (I : mirrors (fresh file_path w)) by reflexivity.
  apply (run_mirrors ops) in I. unfold mirrors in I.
  unfold Test. unfold_st. now rewrite I.
Qed.

End Liveness.

(** ** The file system in memory obeys the laws of [lseek] *)

Lemma Mem_assoc_put (fd : Z) (d : Mem.ofd) (t : list (Z * Mem.ofd)) :
  Mem.assoc Z.eqb fd (Mem.put Z.eqb fd d t) = Some d.
Proof. unfold Mem.put. cbn [Mem.assoc]. now rewrite Z.eqb_refl. Qed.

Lemma Mem_seek_laws :
  seek_laws Mem.posix Mem.offset_of Mem.extent_of Mem.limit_of.
Proof.
  constructor.
  intros w fd distance whence V. cbn [sys_lseek Mem.posix].
  unfold Mem.lseek, Mem.offset_of, Mem.extent_of, Mem.limit_of.
  destruct (Mem.assoc Z.eqb fd (Mem.fdt w)) as [d|] eqn:A.
  - intros _. rewrite V. cbv zeta.
    destruct (within Mem.max_offset _) eqn:T; cbn [fst snd].
    + unfold Mem.set_pos. cbn [Mem.fdt].
      rewrite Mem_assoc_put. cbn [Mem.of_pos Mem.of_ino].
      apply within_spec in T. rewrite Z2N.id by apply T.
      repeat split.
    + rewrite A. repeat split.
  - cbn [fst snd]. now rewrite A.
Qed.

(** * The class on the file system in memory *)

Section Examples.

(** C1 as the specification words it fails: a File opened with success
    and then renamed has no [Close] and no [Remove] in its history, so the
    specification's reading says "open", but [Rename] has closed it. *)
Lemma Test_differs_from_spec_test :
  fst open_then_rename
  = [(Op_Open ckOPEN_WRITE, R_bool true); (Op_Rename b_txt, R_bool true)]
  /\ spec_test (fst open_then_rename) = true
  /\ fst (Test (snd open_then_rename)) = false
  /\ ~ (fst (Test (snd open_then_rename)) = true
        <-> spec_test (fst open_then_rename) = true).
Proof.
  repeat split; try reflexivity.
  intros [_ H]. specialize (H eq_refl). discriminate H.
Qed.

(** C2 on the code: [a.txt] is open on descriptor 3 and [b.txt] exists.
    [Rename(b.txt)] answers false after a single [stat]; nothing is
    renamed and the path is kept, but no [close] is made: the File still
    holds descriptor 3 and [Test] answers true. *)
Lemma Rename_onto_existing_keeps_handle :
  Rename b_txt (on_mem file_a_open a_open [])
  = (false, on_mem file_a_open a_open [ev_stat "b.txt" 0])
  /\ fst (Test (snd (Rename b_txt (on_mem file_a_open a_open [])))) = true.
Proof.
  unfold on_mem.
  rewrite (Rename_onto_existing (os := Mem.posix) file_a_open a_open [] b_txt eq_refl).
  split; reflexivity.
Qed.

(** The seed scenarios of the specification run as written: a write and
    read round trip, then seeking in a file of a hundred bytes. *)
Example write_then_read :
  fst (run [Op_Open ckOPEN_WRITE; Op_Write [x01; x02; x03] 3; Op_Close;
            Op_Open ckOPEN_READ; Op_Read 3; Op_Read 1; Op_Close]
         (fresh (os := Mem.posix) a_txt Mem.empty))
  = [(Op_Open ckOPEN_WRITE, R_bool true);
     (Op_Write [x01; x02; x03] 3, R_int 3);
     (Op_Close, R_bool true);
     (Op_Open ckOPEN_READ, R_bool true);
     (Op_Read 3, R_read 3 [x01; x02; x03]);
     (Op_Read 1, R_read 0 []);
     (Op_Close, R_bool true)].
Proof. reflexivity. Qed.

Example seek_and_tell :
  map snd
    (fst (run [Op_Open ckOPEN_WRITE; Op_Write (repeat x2a 100) 100; Op_Close;
               Op_Open ckOPEN_READ; Op_Seek 0 ckFILE_END;
               Op_Seek (-10) ckFILE_CURRENT; Op_Tell; Op_Seek 0 ckFILE_BEGIN]
            (fresh (os := Mem.posix) a_txt Mem.empty)))
  = [R_bool true; R_int 100; R_bool true; R_bool true;
     R_int 100; R_int 90; R_int 90; R_int 0].
Proof. reflexivity. Qed.

(** [Remove] drops the answer of [Close]: with a [close] that fails, the
    name is unlinked and the answer is true, and the File still holds its
    descriptor. *)
Example Remove_after_failed_close :
  Remove (on_mem file_a_open (Mem.failing_closes 1 a_open) [])
  = (true, on_mem file_a_open a_orphaned [ev_close 3 (-1); ev_unlink "a.txt" 0]).
Proof. reflexivity. Qed.

(** C3 at work: a failing [close] aborts [Open]; after a successful one,
    and on a closed File, [open] is called. *)
Lemma Open_contract_witness :
  Open ckOPEN_WRITE (on_mem file_a_open (Mem.failing_closes 1 a_open) [])
  = (false, on_mem file_a_open a_open [ev_close 3 (-1)])
  /\ Open ckOPEN_READ (on_mem file_a_open a_open [])
     = (true, on_mem file_a_open a_open
                [ev_close 3 0; ev_open "a.txt" 0 None 3])
  /\ Open ckOPEN_READ (on_mem (File_ctor a_txt) two_files [])
     = (true, on_mem file_a_open a_open [ev_open "a.txt" 0 None 3]).
Proof.
  split; [|split].
  - apply (proj1 (Open_contract (os := Mem.posix) file_a_open
                    (Mem.failing_closes 1 a_open) [] ckOPEN_WRITE)
             ltac:(discriminate) (-1) a_open eq_refl ltac:(discriminate)).
  - apply (proj1 (proj2 (Open_contract (os := Mem.posix) file_a_open a_open []
                           ckOPEN_READ))
             ltac:(discriminate) two_files 3 a_open eq_refl eq_refl).
  - apply (proj2 (proj2 (Open_contract (os := Mem.posix) (File_ctor a_txt) two_files []
                           ckOPEN_READ))
             eq_refl 3 a_open eq_refl).
Defined.

(** C4 at work, and two [Close] calls after the first, a [Tell] between
    them. *)
Lemma Close_contract_witness :
  Close (on_mem (File_ctor a_txt) two_files []) = (false, on_mem (File_ctor a_txt) two_files [])
  /\ Close (on_mem file_a_open a_open [])
     = (true, on_mem (File_ctor a_txt) two_files [ev_close 3 0])
  /\ Close (on_mem file_a_open (Mem.failing_closes 1 a_open) [])
     = (false, on_mem file_a_open a_open [ev_close 3 (-1)])
  /\ exists later,
       fst (run [Op_Close; Op_Close; Op_Tell; Op_Close] (on_mem file_a_open a_open []))
       = (Op_Close, R_bool true) :: later
       /\ Forall (fun r => r = R_bool false) (Close_results later).
Proof.
  split; [|split; [|split]].
  - apply (proj1 (Close_contract (os := Mem.posix) (File_ctor a_txt) two_files [])
             eq_refl).
  - apply (proj1 (proj2 (Close_contract (os := Mem.posix) file_a_open a_open []))
             ltac:(discriminate) two_files eq_refl).
  - apply (proj1 (proj2 (proj2 (Close_contract (os := Mem.posix) file_a_open
                                  (Mem.failing_closes 1 a_open) [])))
             ltac:(discriminate) (-1) a_open eq_refl ltac:(discriminate)).
  - apply (proj1 (proj2 (proj2 (proj2
             (Close_contract (os := Mem.posix) file_a_open a_open []))))
             ltac:(discriminate) two_files eq_refl [Op_Close; Op_Tell; Op_Close] eq_refl).
Defined.

(** C5 at work: [a.txt] has three bytes and is open at offset 1. *)
Lemma Size_contract_witness :
  Size (on_mem file_a_open (a_open_at 1) [])
  = (3, on_mem file_a_open (a_open_at 1)
          [ev_lseek 3 0 SEEK_CUR 1; ev_lseek 3 0 SEEK_END 3; ev_lseek 3 1 SEEK_SET 1])
  /\ fst (Tell (snd (Size (on_mem file_a_open (a_open_at 1) []))))
     = fst (Tell (on_mem file_a_open (a_open_at 1) [])).
Proof.
  pose proof (Size_contract (os := Mem.posix) Mem.offset_of Mem.extent_of Mem.limit_of
                file_a_open (a_open_at 1) [] ltac:(discriminate)) as [E [_ T]].
  unfold on_mem. split; [exact E|]. apply (T Mem_seek_laws).
  - intros o [= <-]. split; discriminate.
  - rewrite E. discriminate.
Defined.

(** C6 at work on an open File and on a closed one. *)
Lemma Tell_is_Seek_witness :
  Tell (on_mem file_a_open (a_open_at 1) [])
  = Seek 0 ckFILE_CURRENT (on_mem file_a_open (a_open_at 1) [])
  /\ Tell (on_mem file_a_open (a_open_at 1) [])
     = (1, on_mem file_a_open (a_open_at 1) [ev_lseek 3 0 SEEK_CUR 1])
  /\ Tell (on_mem (File_ctor a_txt) two_files [])
     = (-1, on_mem (File_ctor a_txt) two_files []).
Proof.
  pose proof (Tell_is_Seek_0_CURRENT (os := Mem.posix) Mem.offset_of Mem.extent_of
                Mem.limit_of (on_mem file_a_open (a_open_at 1) []))
    as (E & _ & _ & _ & _ & O).
  pose proof (Tell_is_Seek_0_CURRENT (os := Mem.posix) Mem.offset_of Mem.extent_of
                Mem.limit_of (on_mem (File_ctor a_txt) two_files []))
    as (_ & _ & _ & C & _).
  specialize (O Mem_seek_laws ltac:(discriminate) 1 eq_refl
                ltac:(split; discriminate)) as [O _].
  exact (conj E (conj eq_refl (C eq_refl))).
Defined.

(** C7 at work on a File that was never opened. *)
Lemma closed_io_witness :
  Seek 2 ckFILE_BEGIN (on_mem (File_ctor a_txt) two_files [])
  = (-1, on_mem (File_ctor a_txt) two_files [])
  /\ Tell (on_mem (File_ctor a_txt) two_files []) = (-1, on_mem (File_ctor a_txt) two_files [])
  /\ Read 3 (on_mem (File_ctor a_txt) two_files [])
     = ((-1, []), on_mem (File_ctor a_txt) two_files [])
  /\ Write [x01] 1 (on_mem (File_ctor a_txt) two_files [])
     = (-1, on_mem (File_ctor a_txt) two_files []).
Proof.
  pose proof (closed_io_is_inert (os := Mem.posix) (File_ctor a_txt) two_files [] eq_refl)
    as (S & T & R & W).
  exact (conj (S 2 ckFILE_BEGIN) (conj T (conj (R 3%N) (W [x01] 1%N)))).
Defined.

(** C8 at work: [File(a.txt)], just constructed, against the static
    functions on [a.txt]. *)
Lemma instance_agrees_witness :
  let f := File_ctor a_txt in
  let m := {| world := two_files : World Mem.posix; trace := [] |} in
  let s := {| this := f; mach := m |} in
  let out := (Mem.no_tm, Mem.no_tm, Mem.no_tm) in
  (Exist s = (true, on_mem f two_files [ev_stat "a.txt" 0])
   /\ fst (Exist_static a_txt m) = true)
  /\ (Size s = (3, on_mem f two_files [ev_stat "a.txt" 0])
      /\ fst (Size_static a_txt m) = 3)
  /\ (fst (Time out s) = fst (Time_static a_txt out m)
      /\ fst (fst (Time out s)) = true)
  /\ (Access ckOPEN_WRITE s = (true, on_mem f two_files [ev_access "a.txt" W_OK 0])
      /\ fst (Access_static a_txt ckOPEN_WRITE m) = true)
  /\ (Hidden s = (false, s) /\ fst (Hidden_static a_txt m) = false).
Proof.
  intros f m s out.
  pose proof (instance_agrees_with_static (os := Mem.posix) f m eq_refl)
    as (E & S & T & A & H).
  exact (conj (conj E eq_refl)
          (conj (conj S eq_refl)
             (conj (conj (f_equal fst (T out)) eq_refl)
                (conj (conj (A ckOPEN_WRITE) eq_refl) (conj H eq_refl))))).
Defined.

(** C10 at work: the name [a.txt] is gone, so [rename] fails after the
    descriptor has been closed. *)
Lemma Rename_failure_witness :
  Rename c_txt (on_mem file_a_open a_orphaned [])
  = (false, on_mem (File_ctor a_txt) only_b
              [ev_stat "c.txt" (-1); ev_close 3 0; ev_rename "a.txt" "c.txt" (-1)]).
Proof.
  apply (Rename_failure_loses_handle (os := Mem.posix) file_a_open a_orphaned [] c_txt
           only_b (-1) only_b
           ltac:(discriminate) ltac:(discriminate) eq_refl eq_refl ltac:(discriminate)).
Defined.

End Examples.

(** * Further properties of the class *)

Ltac unfold_members :=
  unfold perform, File_dtor in *; unfold Time in *; unfold_methods;
  unfold Time_static in *.

(** As [split_next], also through the conversions of [Time]. *)
Ltac split_more :=
  first
    [ split_next
    | match goal with
      | |- context [sys_localtime_r ?os ?t] =>
          destruct (sys_localtime_r os t) eqn:?
      end; reduce_st ].

(** Settles the integer tests the hypotheses decide. *)
Ltac settle_tests :=
  repeat match goal with
         | |- context [?a =? ?a] => rewrite (Z.eqb_refl a)
         | H : ?a = ?b |- context [?a =? ?b] => rewrite (proj2 (Z.eqb_eq a b) H)
         | H : ?a <> ?b |- context [?a =? ?b] => rewrite (proj2 (Z.eqb_neq a b) H)
         end.

Section Discipline.

Context {os : Posix}.
Implicit Types (s : State os) (c : call) (cs : list call).

Lemma perform_all_cons c cs s :
  perform_all (c :: cs) s
  = ((c, fst (perform c s)) :: fst (perform_all cs (snd (perform c s))),
     snd (perform_all cs (snd (perform c s)))).
Proof.
  cbn [perform_all]. unfold bind, ret.
  destruct (perform c s) as [a s1]. cbn [fst snd].
  now destruct (perform_all cs s1) as [h s2].
Qed.

Lemma audited_snoc tr e : audited (tr ++ [e]) = audit (audited tr) e.
Proof. unfold audited. now rewrite fold_left_app. Qed.

Lemma perform_in_hand c s : in_hand s -> in_hand (snd (perform c s)).
Proof.
  unfold in_hand. destruct s as [[h p] [w tr]].
  cbn [this mach file_handle_ trace]. intros I.
  destruct (Z.eqb_spec h (-1)) as [Hh|Hh];
  destruct c as [m| | |d wh| |n|b n| | |q|[[ta tb] tc]|m|];
    unfold_members; unfold_st;
    repeat split_more;
    rewrite ?audited_snoc, I;
    unfold handle_opt, audit;
    cbn [fst snd permitted descriptor_of next_held andb];
    settle_tests;
    cbn [fst snd permitted descriptor_of next_held andb];
    settle_tests;
    try reflexivity; try congruence.
Qed.

Lemma perform_all_in_hand cs s : in_hand s -> in_hand (snd (perform_all cs s)).
Proof.
  revert s. induction cs as [|c cs IH]; intros s I; [exact I|].
  rewrite perform_all_cons. cbn [snd]. apply IH. now apply perform_in_hand.
Qed.

Lemma field_of_handle_opt (h : Z) : field_of (handle_opt h) = h.
Proof.
  unfold handle_opt. destruct (Z.eqb_spec h (-1)) as [->|_]; reflexivity.
Qed.

(** X1.  Whatever calls are made on a File, in whatever order and whatever
    the system answers, the File uses descriptors in order: it calls
    [open] only while it holds none, and [close], [lseek], [read],
    [write] and [fstat] only on the descriptor it holds; the descriptor
    field is that descriptor, or [-1] when none is held. *)
Theorem calls_use_descriptors_in_order (file_path : Path) (w : World os) cs :
  disciplined (trace (mach (snd (perform_all cs (fresh file_path w))))) = true
  /\ file_handle_ (this (snd (perform_all cs (fresh file_path w))))
     = field_of (held (trace (mach (snd (perform_all cs (fresh file_path w)))))).
Proof.
  assert (I : in_hand (fresh file_path w)) by reflexivity.
  apply (perform_all_in_hand cs) in I. unfold in_hand in I.
  unfold disciplined, held. rewrite I. cbn [fst snd].
  split; [reflexivity|]. now rewrite field_of_handle_opt.
Qed.

(** X2.  At the end of a File's life: after any calls and the destructor,
    the trace is still in order, and a descriptor is still held only when
    the last thing the destructor did was a [close] of it that the system
    refused. *)
Theorem destruction_releases (file_path : Path) (w : World os) cs :
  let s := snd (perform_all cs (fresh file_path w)) in
  let s' := snd (File_dtor s) in
  disciplined (trace (mach s')) = true
  /\ (held (trace (mach s')) = None
      \/ exists r,
           r <> 0
           /\ trace (mach s') = trace (mach s) ++ [ev_close (file_handle_ (this s)) r]
           /\ held (trace (mach s')) = Some (file_handle_ (this s))).
Proof.
  intros s s'.
  assert (I : in_hand s).
  { apply perform_all_in_hand. reflexivity. }
  assert (E : s' = snd (Close s)).
  { subst s'. unfold File_dtor, bind, ret. now destruct (Close s). }
  assert (I' : in_hand s').
  { rewrite E. pose proof (perform_in_hand Call_Close s I) as P.
    cbn [perform] in P. unfold bind, ret in P. now destruct (Close s). }
  unfold in_hand in I'. unfold disciplined, held. rewrite I'. cbn [fst snd].
  split; [reflexivity|].
  rewrite E. destruct s as [f [w0 tr]]. cbn [this mach trace] in *.
  destruct (Z.eqb_spec (file_handle_ f) (-1)) as [H|H].
  - left. pose proof (Close_absent f w0 tr H) as C. unfold state_of in C.
    rewrite C. cbn [snd this]. unfold handle_opt. now rewrite H.
  - destruct (sys_close os (file_handle_ f) w0) as [r w1] eqn:Ec.
    destruct (Z.eq_dec r 0) as [->|R].
    + left. pose proof (Close_released f w0 tr w1 H Ec) as C.
      unfold state_of in C. now rewrite C.
    + right. exists r. pose proof (Close_refused f w0 tr r w1 H Ec R) as C.
      unfold state_of in C. rewrite C. cbn [snd this mach trace].
      repeat split; [exact R|].
      unfold handle_opt. now rewrite (proj2 (Z.eqb_neq _ _) H).
Qed.

Lemma perform_path c s :
  file_path_ (this (snd (perform c s)))
  = path_step (file_path_ (this s)) (c, fst (perform c s)).
Proof.
  destruct s as [[h p] [w tr]].
  destruct c as [m| | |d wh| |n|b n| | |q|[[ta tb] tc]|m|];
    unfold_members; unfold_st;
    repeat split_more; cbn [fst snd this file_path_ path_step];
    settle_tests; reflexivity.
Qed.

(** X3.  The path of a File is moved by a [Rename] that answers true, to
    the path it was given, and by nothing else: after any calls it is the
    path of the last such [Rename], or the one the File started with. *)
Theorem path_moves_only_by_Rename cs s :
  file_path_ (this (snd (perform_all cs s)))
  = fold_left path_step (fst (perform_all cs s)) (file_path_ (this s)).
Proof.
  revert s. induction cs as [|c cs IH]; intros s; [reflexivity|].
  rewrite perform_all_cons. cbn [fst snd fold_left].
  rewrite IH. now rewrite perform_path.
Qed.

(** X4.  On a File that is not open, [Close], [Test], [Seek], [Tell],
    [Read] and [Write], in any number and order, make no call to the
    system and change nothing; each answers its failure value. *)
Theorem closed_calls_are_inert cs s :
  file_handle_ (this s) = -1 ->
  forallb needs_handle cs = true ->
  perform_all cs s = (map (fun c => (c, refusal c)) cs, s).
Proof.
  intros H. induction cs as [|c cs IH]; intros Hcs; [reflexivity|].
  cbn [forallb] in Hcs. apply andb_prop in Hcs as [Hc Hcs].
  assert (E : perform c s = (refusal c, s)).
  { destruct s as [[h p] [w tr]]. cbn [this file_handle_] in H. subst h.
    destruct c; try discriminate Hc; unfold_members; unfold_st; reflexivity. }
  rewrite perform_all_cons, E. cbn [fst snd]. now rewrite (IH Hcs).
Qed.

(** X5.  [Close] answers true exactly when it takes the File from open to
    closed.  After an [Open] that answers true the File is open; after one
    that answers false it is open only if it is the File it was before
    (the [close] of its descriptor was refused). *)
Theorem answers_agree_with_Test s (file_mode : FileMode) :
  fst (Close s) = fst (Test s) && negb (fst (Test (snd (Close s))))
  /\ (fst (Open file_mode s) = true ->
      fst (Test (snd (Open file_mode s))) = true)
  /\ (fst (Open file_mode s) = false ->
      fst (Test (snd (Open file_mode s))) = true ->
      this (snd (Open file_mode s)) = this s /\ fst (Test s) = true).
Proof.
  destruct s as [[h p] [w tr]].
  split; [|split].
  - unfold Close, Test. unfold_st.
    repeat split_next; cbn [fst snd negb andb]; settle_tests;
      cbn [fst snd negb andb]; first [congruence | reflexivity].
  - unfold Open, Close, Test. unfold_st.
    repeat split_next; cbn [fst snd negb]; settle_tests;
      cbn [fst snd negb]; try reflexivity; try congruence.
  - unfold Open, Close, Test. unfold_st.
    repeat split_next; cbn [fst snd negb]; settle_tests;
      cbn [fst snd negb]; intros; try discriminate; try congruence;
      split; reflexivity.
Qed.

End Discipline.

Section Paths.

Context {os : Posix}.
Implicit Types (f : File) (m : Machine os) (w : World os) (tr : list event).

(** X6.  On a File that is not open, [Remove] is the static [Remove] on
    its path, and [Rename] is the static [Rename] from its path: same
    answer and same calls; [Rename] moves the path exactly when it answers
    true, and the descriptor stays absent. *)
Theorem closed_Remove_and_Rename_are_static f m (new_file_path : Path) :
  file_handle_ f = -1 ->
  let s := {| this := f; mach := m |} in
  let renamed := Rename_static (file_path_ f) new_file_path m in
  Remove s = beside f m (Remove_static (file_path_ f))
  /\ Rename new_file_path s
     = (fst renamed,
        {| this := {| file_handle_ := -1;
                      file_path_ := if fst renamed then new_file_path
                                    else file_path_ f |};
           mach := snd renamed |}).
Proof.
  intros H s renamed. subst s renamed. destruct f as [h p].
  cbn [file_handle_] in H. subst h. unfold beside. split.
  - unfold Remove, Remove_static, Close. unfold_st.
    rewrite (Z.eqb_refl (-1)). reduce_st.
    now destruct (sys_unlink os (Name p) (world m)).
  - unfold Rename, Rename_static, Exist_static, Close. unfold_st.
    destruct (fst (sys_stat os (Name new_file_path) (world m)) =? 0);
      [reflexivity|]. reduce_st. rewrite (Z.eqb_refl (-1)). reduce_st.
    destruct (sys_rename os (Name p) (Name new_file_path) (world m)) as [r w'].
    reduce_st. now destruct (r =? 0).
Qed.

(** X7.  The static [Rename] never renames onto a name that [stat] finds:
    it answers false after that one call and the system is untouched.  It
    answers true only when [stat] failed on the new name and [rename]
    returned 0. *)
Theorem Rename_static_spares_target (old_file_path new_file_path : Path) m :
  let found := fst (sys_stat os (Name new_file_path) (world m)) in
  let moved := sys_rename os (Name old_file_path) (Name new_file_path) (world m) in
  (found = 0 ->
     Rename_static old_file_path new_file_path m
     = (false, {| world := world m;
                  trace := trace m ++ [ev_stat (Name new_file_path) 0] |}))
  /\ (fst (Rename_static old_file_path new_file_path m) = true <->
      found <> 0 /\ fst moved = 0)
  /\ (found <> 0 ->
      world (snd (Rename_static old_file_path new_file_path m)) = snd moved).
Proof.
  intros found moved. subst found moved.
  unfold Rename_static, Exist_static. unfold_st.
  destruct (Z.eqb_spec (fst (sys_stat os (Name new_file_path) (world m))) 0)
    as [E|E]; reduce_st.
  - split; [intros _; now rewrite E|].
    split; [|intros F; contradiction].
    split; [discriminate|]. intros [F _]. contradiction.
  - destruct (sys_rename os _ _ _) as [r w']. reduce_st.
    split; [intros F; contradiction|].
    split; [|reflexivity].
    rewrite Z.eqb_eq. tauto.
Qed.

(** X8.  The static [Time] makes one call, [stat], and changes nothing.
    It answers true exactly when [stat] did not return [-1] and the three
    conversions to local time succeed, and then the slots hold the
    converted access, modification and status-change times, in that
    order. *)
Theorem Time_static_answer (file_path : Path) (out : times) m :
  let st := sys_stat os (Name file_path) (world m) in
  let lt := sys_localtime_r os in
  let r := Time_static file_path out m in
  snd r = {| world := world m;
             trace := trace m ++ [ev_stat (Name file_path) (fst st)] |}
  /\ (fst (fst r) = true <->
      fst st <> -1
      /\ exists a b c,
           lt (st_atime (snd st)) = Some a
           /\ lt (st_mtime (snd st)) = Some b
           /\ lt (st_ctime (snd st)) = Some c
           /\ snd (fst r) = (a, b, c)).
Proof.
  intros st lt r. subst st lt r. destruct out as [[ta tb] tc].
  unfold Time_static. unfold_st.
  destruct (sys_stat os (Name file_path) (world m)) as [rc file_stat].
  cbn [fst snd]. destruct (Z.eqb_spec rc (-1)) as [E|E]; reduce_st.
  - split; [reflexivity|]. split; [discriminate|]. intros [F _]. contradiction.
  - destruct (sys_localtime_r os (st_atime file_stat)) as [a|]; reduce_st.
    + destruct (sys_localtime_r os (st_mtime file_stat)) as [b|]; reduce_st.
      * destruct (sys_localtime_r os (st_ctime file_stat)) as [c|]; reduce_st.
        -- split; [reflexivity|]. split; [|reflexivity].
           intros _. split; [exact E|]. now exists a, b, c.
        -- split; [reflexivity|]. split; [discriminate|].
           intros (_ & a' & b' & c' & _ & _ & F & _). discriminate F.
      * split; [reflexivity|]. split; [discriminate|].
        intros (_ & a' & b' & c' & _ & F & _). discriminate F.
    + split; [reflexivity|]. split; [discriminate|].
      intros (_ & a' & b' & c' & F & _). discriminate F.
Qed.

(** X9.  An open File asks [fstat] on its descriptor where the static
    functions ask [stat] on the path.  Whenever the two report the same,
    [Exist] and [Time] on the open File answer what the static functions
    answer on its path, and neither changes the File or the system. *)
Theorem by_handle_as_by_path f w tr (out : times) :
  file_handle_ f <> -1 ->
  sys_fstat os (file_handle_ f) w = sys_stat os (Name (file_path_ f)) w ->
  let s := state_of f w tr in
  let m := {| world := w; trace := tr |} in
  fst (Exist s) = fst (Exist_static (file_path_ f) m)
  /\ fst (Time out s) = fst (Time_static (file_path_ f) out m)
  /\ this (snd (Exist s)) = f /\ world (mach (snd (Exist s))) = w
  /\ this (snd (Time out s)) = f /\ world (mach (snd (Time out s))) = w.
Proof.
  intros H E s m. subst s m. destruct out as [[ta tb] tc].
  unfold Exist, Time, Time_static, Exist_static. unfold_st.
  repeat handle_test. rewrite E.
  destruct (sys_stat os (Name (file_path_ f)) w) as [rc file_stat].
  reduce_st. destruct (rc =? -1); reduce_st; [now repeat split|].
  destruct (sys_localtime_r os (st_atime file_stat)); reduce_st;
    [|now repeat split].
  destruct (sys_localtime_r os (st_mtime file_stat)); reduce_st;
    [|now repeat split].
  destruct (sys_localtime_r os (st_ctime file_stat)); reduce_st;
    now repeat split.
Qed.

(** X10.  A path on which [stat] fails: [Exist] answers false, [Size]
    answers [-1], [Time] answers false and leaves the three slots as they
    were.  A path on which [Exist] answers true: [Size] answers the size
    [stat] reported. *)
Theorem static_queries_on_stat (file_path : Path) (out : times) m :
  let st := sys_stat os (Name file_path) (world m) in
  (fst st = -1 ->
     fst (Exist_static file_path m) = false
     /\ fst (Size_static file_path m) = -1
     /\ fst (Time_static file_path out m) = (false, out))
  /\ (fst (Exist_static file_path m) = true ->
      fst (Size_static file_path m) = st_size (snd st)).
Proof.
  intros st. subst st. destruct out as [[ta tb] tc].
  unfold Exist_static, Size_static, Time_static. unfold_st.
  destruct (sys_stat os (Name file_path) (world m)) as [rc file_stat].
  cbn [fst snd]. split.
  - intros ->. now repeat split.
  - intros E. apply Z.eqb_eq in E. subst rc. reflexivity.
Qed.

Section Moving.

Variable offset : World os -> Z -> option Z.
Variable extent : World os -> Z -> Z.
Variable limit : World os -> Z -> Z.

(** The constant [Seek] hands to [lseek] for each member of [FileWhence]. *)
Let origin (whence : FileWhence) : Z :=
  match whence with
  | ckFILE_CURRENT => SEEK_CUR
  | ckFILE_BEGIN => SEEK_SET
  | ckFILE_END => SEEK_END
  end.

(** X11.  [Seek] leaves the File unchanged.  Where [lseek] obeys its laws,
    [Seek] on an open File whose offset lies within the limit moves the
    offset to the distance counted from the start ([BEGIN]), from the
    current offset ([CURRENT]) or from the end ([END]) and answers the new
    offset, which [Tell] then answers too, provided that position lies
    between 0 and the limit; when it would be negative or beyond the
    limit, [Seek] answers [-1] and the offset stays. *)
Theorem Seek_moves_the_offset f w tr (distance : Z) (whence : FileWhence) (o : Z) :
  file_handle_ f <> -1 ->
  let h := file_handle_ f in
  let r := Seek distance whence (state_of f w tr) in
  this (snd r) = f
  /\ (seek_laws os offset extent limit ->
      offset w h = Some o ->
      0 <= o <= limit w h ->
      let target := seek_target whence o (extent w h) distance in
      (0 <= target <= limit w h ->
         fst r = target
         /\ offset (world (mach (snd r))) h = Some target
         /\ fst (Tell (snd r)) = target)
      /\ (target < 0 \/ limit w h < target ->
          fst r = -1
          /\ offset (world (mach (snd r))) h = Some o
          /\ fst (Tell (snd r)) = o)).
Proof.
  intros H h r. subst h r.
  assert (E : Seek distance whence (state_of f w tr)
              = (fst (sys_lseek os (file_handle_ f) distance (origin whence) w),
                 state_of f
                   (snd (sys_lseek os (file_handle_ f) distance (origin whence) w))
                   (tr ++ [ev_lseek (file_handle_ f) distance (origin whence)
                             (fst (sys_lseek os (file_handle_ f) distance
                                     (origin whence) w))]))).
  { unfold Seek, origin. unfold_st. handle_test.
    destruct whence; now destruct (sys_lseek os _ _ _ _). }
  rewrite E. cbn [fst snd]. unfold state_of at 1. cbn [this].
  split; [reflexivity|].
  intros laws Ho Hin.
  set (target := seek_target whence o (extent w (file_handle_ f)) distance).
  assert (V : valid_whence (origin whence) = true) by (now destruct whence).
  assert (B : seek_base (origin whence) o (extent w (file_handle_ f)) + distance
              = target) by (now destruct whence).
  destruct (lseek_moves offset extent limit laws w (file_handle_ f) distance
              (origin whence) o V Ho Hin) as (_ & M & Y & N).
  rewrite B in Y, N. unfold state_of at 1 3. cbn [mach world].
  split.
  - intros T. destruct (Y (proj2 (within_spec _ _) T)) as [R O].
    split; [exact R|]. split; [exact O|].
    apply (Tell_offset offset extent limit laws f); try assumption.
    now rewrite M.
  - intros T.
    assert (F : within (limit w (file_handle_ f)) target = false).
    { destruct (within _ target) eqn:W; [|reflexivity].
      apply within_spec in W. lia. }
    destruct (N F) as [R O].
    split; [exact R|]. split; [exact O|].
    apply (Tell_offset offset extent limit laws f); try assumption.
    now rewrite M.
Qed.

End Moving.

End Paths.

Section Asking.

Context {os : Posix}.
Implicit Types (s : State os) (c : call) (cs : list call).

Lemma query_changes_nothing c s :
  is_query c = true ->
  this (snd (perform c s)) = this s
  /\ world (mach (snd (perform c s))) = world (mach s).
Proof.
  intros Q. destruct s as [[h p] [w tr]].
  destruct c as [m| | |d wh| |n|b n| | |q|[[ta tb] tc]|m|];
    try discriminate Q; unfold_members; unfold_st;
    repeat split_more; split; reflexivity.
Qed.

(** X12.  [Test], [Exist], [Time] and [Access] only ask: in any number and
    order, on an open File or a closed one, they leave the File and the
    system as they found them. *)
Theorem queries_change_nothing cs s :
  forallb is_query cs = true ->
  this (snd (perform_all cs s)) = this s
  /\ world (mach (snd (perform_all cs s))) = world (mach s).
Proof.
  revert s. induction cs as [|c cs IH]; intros s Q; [now split|].
  cbn [forallb] in Q. apply andb_prop in Q as [Qc Q].
  rewrite perform_all_cons. cbn [snd].
  destruct (IH (snd (perform c s)) Q) as [T W].
  destruct (query_changes_nothing c s Qc) as [T' W'].
  split; congruence.
Qed.

End Asking.

Section Guarding.

Context {os : Posix}.
Implicit Types (s : State os) (c : call) (cs : list call).

Lemma renames_guarded_grows tr more :
  renames_guarded tr = true ->
  (forall st, fst st = true -> fst (fold_left guard more st) = true) ->
  renames_guarded (tr ++ more) = true.
Proof.
  unfold renames_guarded. intros G M. rewrite fold_left_app. now apply M.
Qed.

Lemma perform_guarded c s :
  renames_guarded (trace (mach s)) = true ->
  renames_guarded (trace (mach (snd (perform c s)))) = true.
Proof.
  destruct s as [[h p] [w tr]]. cbn [mach trace]. intros G.
  destruct c as [m| | |d wh| |n|b n| | |q|[[ta tb] tc]|m|];
    unfold_members; unfold_st;
    repeat split_more; rewrite <- ?app_assoc; cbn [app];
    try exact G;
    (apply renames_guarded_grows; [exact G|]);
    intros [ok name] Hok; cbn [fst] in Hok; subst ok;
    cbn [fold_left guard fst snd andb];
    settle_tests; cbn [fst snd andb];
    rewrite ?String.eqb_refl; try reflexivity; try congruence.
Qed.

(** X13.  Whatever calls are made on a File, it asks the system to rename
    only onto a name that [stat] has just failed to find: every [rename]
    in its trace follows a [stat] of its target that did not return 0,
    with nothing but the File's own [close] between the two.  The static
    [Rename] keeps to the same rule. *)
Theorem renames_follow_a_failed_stat (file_path : Path) (w : World os) cs :
  renames_guarded (trace (mach (snd (perform_all cs (fresh file_path w))))) = true
  /\ (forall (old_file_path new_file_path : Path) (m : Machine os),
      renames_guarded (trace m) = true ->
      renames_guarded (trace (snd (Rename_static old_file_path new_file_path m)))
      = true).
Proof.
  split.
  - assert (G : renames_guarded (trace (mach (fresh file_path w))) = true)
      by reflexivity.
    revert G. generalize (fresh file_path w).
    induction cs as [|c cs IH]; intros s G; [exact G|].
    rewrite perform_all_cons. cbn [snd]. apply IH. now apply perform_guarded.
  - intros old_file_path new_file_path [w0 tr] G. cbn [trace] in G.
    unfold Rename_static, Exist_static. unfold_st.
    repeat split_next; rewrite <- ?app_assoc; cbn [app];
      (apply renames_guarded_grows; [exact G|]);
      intros [ok name] Hok; cbn [fst] in Hok; subst ok;
      cbn [fold_left guard fst snd andb];
      settle_tests; cbn [fst snd andb];
      rewrite ?String.eqb_refl; try reflexivity; try congruence.
Qed.

End Guarding.

(** * The further properties on the file system in memory *)

Section MoreExamples.

(** X4 at work on [File(a.txt)], never opened. *)
Lemma closed_calls_witness :
  perform_all
    [Call_Close; Call_Tell; Call_Read 3; Call_Test; Call_Seek 1 ckFILE_BEGIN;
     Call_Write [x01] 1]
    (on_mem (File_ctor a_txt) two_files [])
  = ([(Call_Close, A_bool false); (Call_Tell, A_int (-1));
      (Call_Read 3, A_read (-1) []); (Call_Test, A_bool false);
      (Call_Seek 1 ckFILE_BEGIN, A_int (-1)); (Call_Write [x01] 1, A_int (-1))],
     on_mem (File_ctor a_txt) two_files []).
Proof.
  exact (closed_calls_are_inert (os := Mem.posix)
           [Call_Close; Call_Tell; Call_Read 3; Call_Test; Call_Seek 1 ckFILE_BEGIN;
            Call_Write [x01] 1]
           (on_mem (File_ctor a_txt) two_files []) eq_refl eq_refl).
Defined.

(** X5 at work: an [Open] that succeeds, and one whose [close] is refused. *)
Lemma answers_agree_witness :
  fst (Test (snd (Open ckOPEN_READ (on_mem (File_ctor a_txt) two_files [])))) = true
  /\ (this (snd (Open ckOPEN_WRITE
                    (on_mem file_a_open (Mem.failing_closes 1 a_open) [])))
      = file_a_open
      /\ fst (Test (on_mem file_a_open (Mem.failing_closes 1 a_open) [])) = true).
Proof.
  split.
  - exact (proj1 (proj2 (answers_agree_with_Test (os := Mem.posix)
                           (on_mem (File_ctor a_txt) two_files []) ckOPEN_READ))
             eq_refl).
  - exact (proj2 (proj2 (answers_agree_with_Test (os := Mem.posix)
                           (on_mem file_a_open (Mem.failing_closes 1 a_open) [])
                           ckOPEN_WRITE))
             eq_refl eq_refl).
Defined.

(** X6 at work: [File(a.txt)], closed, is renamed to the free name [c.txt],
    is not renamed to [b.txt], and is removed. *)
Lemma closed_Remove_and_Rename_witness :
  let s := {| this := File_ctor a_txt;
              mach := mem_machine two_files [] |} in
  fst (Remove s) = true
  /\ (fst (Rename c_txt s) = true /\ file_path_ (this (snd (Rename c_txt s))) = c_txt)
  /\ (fst (Rename b_txt s) = false /\ file_path_ (this (snd (Rename b_txt s))) = a_txt).
Proof.
  intros s.
  pose proof (closed_Remove_and_Rename_are_static (os := Mem.posix)
                (File_ctor a_txt) (mach s) c_txt eq_refl) as [R C].
  pose proof (closed_Remove_and_Rename_are_static (os := Mem.posix)
                (File_ctor a_txt) (mach s) b_txt eq_refl) as [_ B].
  exact (conj (f_equal fst R)
           (conj (conj (f_equal fst C)
                    (f_equal (fun r => file_path_ (this (snd r))) C))
              (conj (f_equal fst B)
                 (f_equal (fun r => file_path_ (this (snd r))) B)))).
Defined.

(** X7 at work: [b.txt] exists, so [a.txt] is not renamed onto it. *)
Lemma Rename_static_witness :
  Rename_static (os := Mem.posix) a_txt b_txt (mem_machine two_files [])
  = (false, mem_machine two_files [ev_stat "b.txt" 0]).
Proof.
  exact (proj1 (Rename_static_spares_target (os := Mem.posix) a_txt b_txt
                  (mem_machine two_files [])) eq_refl).
Defined.

(** X9 at work: [a.txt] by its descriptor and by its name. *)
Lemma by_handle_witness :
  fst (Exist (on_mem file_a_open a_open []))
  = fst (Exist_static (os := Mem.posix) a_txt (mem_machine a_open []))
  /\ fst (Time no_times (on_mem file_a_open a_open []))
     = fst (Time_static (os := Mem.posix) a_txt no_times
              (mem_machine a_open [])).
Proof.
  pose proof (by_handle_as_by_path (os := Mem.posix) file_a_open a_open [] no_times
                ltac:(discriminate) eq_refl) as (E & T & _).
  exact (conj E T).
Defined.

(** X10 at work: [c.txt] does not exist, [a.txt] has three bytes. *)
Lemma static_queries_witness :
  (fst (Exist_static (os := Mem.posix) c_txt (mem_machine two_files []))
   = false
   /\ fst (Size_static (os := Mem.posix) c_txt (mem_machine two_files []))
      = -1
   /\ fst (Time_static (os := Mem.posix) c_txt no_times
             (mem_machine two_files []))
      = (false, no_times))
  /\ fst (Size_static (os := Mem.posix) a_txt (mem_machine two_files []))
     = 3.
Proof.
  split.
  - exact (proj1 (static_queries_on_stat (os := Mem.posix) c_txt no_times
                    (mem_machine two_files [])) eq_refl).
  - exact (proj2 (static_queries_on_stat (os := Mem.posix) a_txt no_times
                    (mem_machine two_files [])) eq_refl).
Defined.

(** X11 at work: [a.txt] has three bytes and is open at offset 1; one
    before the end is offset 2, five back from the offset is refused, and
    so is the largest distance there is forward from it. *)
Lemma Seek_moves_witness :
  (fst (Seek (-1) ckFILE_END (on_mem file_a_open (a_open_at 1) [])) = 2
   /\ fst (Tell (snd (Seek (-1) ckFILE_END (on_mem file_a_open (a_open_at 1) [])))) = 2)
  /\ (fst (Seek (-5) ckFILE_CURRENT (on_mem file_a_open (a_open_at 1) [])) = -1
      /\ fst (Tell (snd (Seek (-5) ckFILE_CURRENT
                           (on_mem file_a_open (a_open_at 1) [])))) = 1)
  /\ (fst (Seek 9223372036854775807 ckFILE_CURRENT
             (on_mem file_a_open (a_open_at 1) [])) = -1
      /\ fst (Tell (snd (Seek 9223372036854775807 ckFILE_CURRENT
                           (on_mem file_a_open (a_open_at 1) [])))) = 1).
Proof.
  assert (Hin : 0 <= 1 <= Mem.limit_of (a_open_at 1) 3) by (split; discriminate).
  pose proof (Seek_moves_the_offset (os := Mem.posix) Mem.offset_of Mem.extent_of
                Mem.limit_of file_a_open (a_open_at 1) [] (-1) ckFILE_END 1
                ltac:(discriminate)) as (_ & F).
  pose proof (Seek_moves_the_offset (os := Mem.posix) Mem.offset_of Mem.extent_of
                Mem.limit_of file_a_open (a_open_at 1) [] (-5) ckFILE_CURRENT 1
                ltac:(discriminate)) as (_ & B).
  pose proof (Seek_moves_the_offset (os := Mem.posix) Mem.offset_of Mem.extent_of
                Mem.limit_of file_a_open (a_open_at 1) [] 9223372036854775807
                ckFILE_CURRENT 1 ltac:(discriminate)) as (_ & O).
  destruct (F Mem_seek_laws eq_refl Hin) as [F' _].
  destruct (B Mem_seek_laws eq_refl Hin) as [_ B'].
  destruct (O Mem_seek_laws eq_refl Hin) as [_ O'].
  destruct (F' ltac:(split; discriminate)) as (F1 & _ & F2).
  destruct (B' (or_introl eq_refl)) as (B1 & _ & B2).
  destruct (O' (or_intror eq_refl)) as (O1 & _ & O2).
  exact (conj (conj F1 F2) (conj (conj B1 B2) (conj O1 O2))).
Defined.

(** X12 at work on the open [File(a.txt)]. *)
Lemma queries_witness :
  let cs := [Call_Test; Call_Exist; Call_Access ckOPEN_READ; Call_Time no_times] in
  this (snd (perform_all cs (on_mem file_a_open a_open []))) = file_a_open
  /\ world (mach (snd (perform_all cs (on_mem file_a_open a_open [])))) = a_open.
Proof.
  intros cs.
  exact (queries_change_nothing (os := Mem.posix) cs
           (on_mem file_a_open a_open []) eq_refl).
Defined.

(** X13 at work: the static [Rename] of [a.txt] to the free name [c.txt]
    on a machine that has made no call. *)
Lemma renames_guarded_witness :
  renames_guarded
    (trace (snd (Rename_static (os := Mem.posix) a_txt c_txt (mem_machine two_files []))))
  = true.
Proof.
  exact (proj2 (renames_follow_a_failed_stat (os := Mem.posix) a_txt Mem.empty [])
           a_txt c_txt (mem_machine two_files []) eq_refl).
Defined.

(** The two audits refuse what they should: a second [open] while a
    descriptor is held, a call on a descriptor that was closed, and a
    [rename] onto a name that [stat] found. *)
Example audits_refuse :
  disciplined [ev_open "a.txt" 0 None 3; ev_open "b.txt" 0 None 4] = false
  /\ disciplined [ev_open "a.txt" 0 None 3; ev_close 3 0; ev_read 3 1 (-1)] = false
  /\ renames_guarded [ev_stat "b.txt" 0; ev_rename "a.txt" "b.txt" 0] = false
  /\ renames_guarded [ev_stat "c.txt" (-1); ev_rename "a.txt" "b.txt" 0] = false.
Proof. repeat split. Qed.

End MoreExamples.
